(** * A shallow embedding of [image_vae.py]

    The multilayer-perceptron variational auto-encoder of
    [tensorflow_examples/variational_auto_encoder/image_vae.py], with the
    TensorFlow operations it calls, and the properties its specification
    states about it.

    Conventions of the embedding.
    - Python integers are [Z]; a tensor shape is a [list nat].  A Python
      [float] is the rational it stands for, and its operations round to
      binary64.
    - Tensor entries are real numbers ([R]) where a property is about
      shapes, indices or the order of effects.  What the encoder and the
      decoder promise about signs and ranges is stated for [float32]
      entries, with their NaN, in the part on [float32] arithmetic.
    - A Python exception is a [Raise] result; effects (the random generator,
      the calls and prints a run makes) are threaded through a state monad
      whose state survives an exception, as Python's does. *)

From Stdlib Require Import String.
From Stdlib Require Import ZArith QArith Qround Qabs Qpower Reals Lra Lia Bool List.
From Stdlib Require Lqa.
Import ListNotations.

Close Scope Q_scope.
Close Scope R_scope.
Open Scope nat_scope.

(** ** Exceptions and results *)

Inductive exn : Type :=
| AssertionError
| IndexError
| KeyError
| ValueError
| ZeroDivisionError
| InvalidArgumentError.

Inductive result (A : Type) : Type :=
| Ok (a : A)
| Raise (e : exn).

Arguments Ok {A} a.
Arguments Raise {A} e.

Definition bindR {A B : Type} (c : result A) (k : A -> result B) : result B :=
  match c with
  | Ok a => k a
  | Raise e => Raise e
  end.

Definition assertR (b : bool) : result unit :=
  if b then Ok tt else Raise AssertionError.

Declare Scope result_scope.
Delimit Scope result_scope with result.
Notation "x <-? c ;; k" := (bindR c (fun x => k))
  (at level 61, c at next level, right associativity) : result_scope.
Notation "' pat <-? c ;; k" := (bindR c (fun x => match x with pat => k end))
  (at level 61, pat pattern, c at next level, right associativity) : result_scope.

(** ** Python numbers *)

(** A Python [float] is an IEEE 754 binary64 number.  A finite one is
    modelled by the rational it stands for, and an operation returns its
    exact result rounded to the nearest float, ties going to the even
    significand.  A float has 53 significant bits; below [2 ^ -1022] the
    floats are evenly spaced by [2 ^ -1074].  The exponent is not bounded
    from above: a result of magnitude [2 ^ 1024] or more, for which Python
    raises [OverflowError], does not arise from the size of a tensor. *)

Definition pow2 (k : Z) : Q := (2 ^ k)%Q.

(** The binade of a positive number [x]: the [e] with
    [2 ^ e <= x < 2 ^ (e + 1)]. *)
Definition binade (x : Q) : Z :=
  if Qle_bool 1 x then Z.log2 (Qfloor x)
  else (- Z.log2_up (Qceiling (/ x)))%Z.

Definition round_half_even (x : Q) : Z :=
  let f := Qfloor x in
  match (x - inject_Z f ?= 1 # 2)%Q with
  | Lt => f
  | Gt => (f + 1)%Z
  | Eq => if Z.even f then f else (f + 1)%Z
  end.

(** Rounding to binary64. *)
Definition binary64 (x : Q) : Q :=
  let ulp := pow2 (Z.max (binade (Qabs x) - 52) (-1074)) in
  (inject_Z (round_half_even (x / ulp)) * ulp)%Q.

(** [float(n)], the conversion an integer operand of a float operation
    undergoes; [n / d] on integers, whose quotient is rounded once; and
    [x - y] on floats. *)
Definition float_of_int (n : Z) : Q := binary64 (inject_Z n).
Definition true_div (n d : Z) : Q := binary64 (inject_Z n / inject_Z d).
Definition float_sub (x y : Q) : Q := binary64 (x - y).

(** [int(q)] on a float: truncation toward zero. *)
Definition py_int (q : Q) : Z :=
  if Qle_bool 0 q then Qfloor q else Qceiling q.

(** [int(n / d)] when [n] is a dimension of a tensor and [d] an integer:
    true division, then truncation; dividing by zero raises.  A dimension
    is below [2 ^ 53], so that [n] is a float and the rounded quotient has
    the integer part of the exact one (it is off by less than the [1 / d]
    that separates a fraction from the next integer); the quotient is
    therefore kept exact. *)
Definition int_div (n d : Z) : result Z :=
  if (d =? 0)%Z then Raise ZeroDivisionError
  else Ok (py_int (inject_Z n / inject_Z d)%Q).

(** ** Tensors *)

(** A tensor is its static shape and its entries, addressed by a multi-index
    (one position for each axis). *)
Record tensor (A : Type) : Type := Tensor {
  shape : list nat;
  item : list nat -> A
}.

Arguments Tensor {A} shape item.
Arguments shape {A} t.
Arguments item {A} t idx.

(** [idx] addresses an entry of a tensor of shape [s]. *)
Definition in_bounds (idx s : list nat) : Prop := Forall2 lt idx s.

Definition numel (s : list nat) : nat := fold_right Nat.mul 1 s.

(** All multi-indices of a shape, in row-major order. *)
Fixpoint indices (s : list nat) : list (list nat) :=
  match s with
  | [] => [[]]
  | d :: s' => flat_map (fun i => map (cons i) (indices s')) (seq 0 d)
  end.

(** Row-major position of a multi-index. *)
Definition flat_index (s idx : list nat) : nat :=
  fold_left (fun acc di => acc * fst di + snd di) (combine s idx) 0.

Definition scalar {A : Type} (x : A) : tensor A := Tensor [] (fun _ => x).

Definition zeros (s : list nat) : tensor R := Tensor s (fun _ => 0%R).

(** [t.shape[k]]. *)
Definition shape_at {A : Type} (t : tensor A) (k : nat) : result nat :=
  match nth_error (shape t) k with
  | Some d => Ok d
  | None => Raise IndexError
  end.

(** A shape given as Python integers: a negative size is rejected. *)
Fixpoint as_shape (dims : list Z) : result (list nat) :=
  match dims with
  | [] => Ok []
  | d :: dims' =>
      if (d <? 0)%Z then Raise InvalidArgumentError
      else (s <-? as_shape dims' ;; Ok (Z.to_nat d :: s))%result
  end.

(** *** Broadcasting *)

(** Shapes are aligned on their last axis; two sizes are compatible when they
    are equal or one of them is 1. *)
Fixpoint broadcast_rev (s1 s2 : list nat) : option (list nat) :=
  match s1, s2 with
  | [], s => Some s
  | s, [] => Some s
  | a :: s1', b :: s2' =>
      if a =? b then option_map (cons a) (broadcast_rev s1' s2')
      else if a =? 1 then option_map (cons b) (broadcast_rev s1' s2')
      else if b =? 1 then option_map (cons a) (broadcast_rev s1' s2')
      else None
  end.

Definition broadcast_shapes (s1 s2 : list nat) : option (list nat) :=
  option_map (@rev nat) (broadcast_rev (rev s1) (rev s2)).

Fixpoint clamp (s idx : list nat) : list nat :=
  match s, idx with
  | d :: s', i :: idx' => (if d =? 1 then 0 else i) :: clamp s' idx'
  | _, _ => []
  end.

(** The entry of an operand of shape [s] that is used at position [idx] of
    the broadcast result: leading axes the operand lacks are dropped, and an
    axis of size 1 is read at 0. *)
Definition bidx (s idx : list nat) : list nat :=
  clamp s (skipn (length idx - length s) idx).

Definition tmap {A B : Type} (f : A -> B) (t : tensor A) : tensor B :=
  Tensor (shape t) (fun idx => f (item t idx)).

Definition tmap2 {A B C : Type} (f : A -> B -> C)
    (a : tensor A) (b : tensor B) : result (tensor C) :=
  match broadcast_shapes (shape a) (shape b) with
  | Some s =>
      Ok (Tensor s (fun idx =>
            f (item a (bidx (shape a) idx)) (item b (bidx (shape b) idx))))
  | None => Raise InvalidArgumentError
  end.

Definition tadd : tensor R -> tensor R -> result (tensor R) := tmap2 Rplus.
Definition tsub : tensor R -> tensor R -> result (tensor R) := tmap2 Rminus.
Definition tmul : tensor R -> tensor R -> result (tensor R) := tmap2 Rmult.
Definition tdiv : tensor R -> tensor R -> result (tensor R) := tmap2 Rdiv.

Definition Rgtb (x y : R) : bool := if Rgt_dec x y then true else false.

Definition tgreater : tensor R -> tensor R -> result (tensor bool) := tmap2 Rgtb.

(** [bool(t)], as the [if] statement applies it: the entry of a one-element
    tensor, [False] for an empty one, and an error when there are several
    entries. *)
Definition truth (t : tensor bool) : result bool :=
  match numel (shape t) with
  | 0 => Ok false
  | 1 => Ok (item t (repeat 0 (length (shape t))))
  | _ => Raise ValueError
  end.

(** *** Linear algebra *)

Definition Rsum (l : list R) : R := fold_right Rplus 0%R l.

(** [tf.transpose] with the default permutation: the axes are reversed. *)
Definition transpose {A : Type} (t : tensor A) : tensor A :=
  Tensor (rev (shape t)) (fun idx => item t (rev idx)).

(** [tf.matmul(a, b, transpose_b=...)] on matrices.  Operands of rank below
    two are rejected, as TensorFlow does; batched products of operands of
    higher rank are outside this development and also reported as an
    error. *)
Definition matmul (a b : tensor R) (transpose_b : bool) : result (tensor R) :=
  match shape a, shape b with
  | [m; k], [p; q] =>
      let k' := if transpose_b then q else p in
      let n := if transpose_b then p else q in
      if k =? k' then
        Ok (Tensor [m; n] (fun idx =>
              let i := nth 0 idx 0 in
              let j := nth 1 idx 0 in
              Rsum (map (fun l =>
                      (item a [i; l] *
                       item b (if transpose_b then [j; l] else [l; j]))%R)
                    (seq 0 k))))
      else Raise InvalidArgumentError
  | _, _ => Raise InvalidArgumentError
  end.

(** *** Slicing *)

(** A slice bound against an axis of [n] entries: a negative bound counts
    from the end, and the result is clipped to [0..n]. *)
Definition slice_bound (i : Z) (n : nat) : nat :=
  if (i <? 0)%Z then Z.to_nat (Z.max 0 (i + Z.of_nat n))
  else Nat.min (Z.to_nat i) n.

(** [t[start:stop]], a slice of the first axis. *)
Definition rows_slice {A : Type} (start stop : Z) (t : tensor A)
  : result (tensor A) :=
  match shape t with
  | [] => Raise IndexError
  | n :: rest =>
      let a := slice_bound start n in
      let b := slice_bound stop n in
      Ok (Tensor ((b - a) :: rest) (fun idx =>
            match idx with
            | i :: idx' => item t ((a + i) :: idx')
            | [] => item t []
            end))
  end.

(** [t[:, :stop]]. *)
Definition cols_to {A : Type} (stop : nat) (t : tensor A) : result (tensor A) :=
  match shape t with
  | n :: c :: rest =>
      Ok (Tensor (n :: Nat.min stop c :: rest) (item t))
  | _ => Raise IndexError
  end.

(** [t[:, start:]]. *)
Definition cols_from {A : Type} (start : nat) (t : tensor A) : result (tensor A) :=
  match shape t with
  | n :: c :: rest =>
      let a := Nat.min start c in
      Ok (Tensor (n :: (c - a) :: rest) (fun idx =>
            match idx with
            | i :: j :: idx' => item t (i :: (a + j) :: idx')
            | _ => item t idx
            end))
  | _ => Raise IndexError
  end.

(** *** Activations and reductions *)

(** [tf.nn.leaky_relu] with its default slope 0.2. *)
Definition leaky_relu (x : R) : R := Rmax (0.2 * x) x.

Definition sigmoid (x : R) : R := (1 / (1 + exp (- x)))%R.

Definition square (x : R) : R := (x * x)%R.

(** Mean over the last axis, which disappears from the shape. *)
Definition reduce_mean_last (t : tensor R) : result (tensor R) :=
  match rev (shape t) with
  | [] => Raise InvalidArgumentError
  | n :: rs =>
      Ok (Tensor (rev rs) (fun idx =>
            (Rsum (map (fun l => item t (idx ++ [l])) (seq 0 n)) / INR n)%R))
  end.

(** [tf.reduce_mean] without an axis: the mean of all entries, a scalar. *)
Definition reduce_mean (t : tensor R) : tensor R :=
  scalar (Rsum (map (item t) (indices (shape t))) / INR (numel (shape t)))%R.

(** [tf.losses.mean_squared_error(y_true, y_pred)]: the mean over the last
    axis of the squared difference. *)
Definition mean_squared_error (y_true y_pred : tensor R) : result (tensor R) :=
  (d <-? tsub y_pred y_true ;;
   reduce_mean_last (tmap square d))%result.

(** ** Effects *)

(** What a run does that can be observed from outside the model: the
    variables it creates, the training steps and optimizer calls it makes,
    and the lines it prints. *)
Inductive event : Type :=
| NewVariable (s : list nat)
| TrainingStep (inputs_batch : tensor R)
| ApplyGradients
| PrintEpoch (epoch_num num_epochs : Z) (train_loss val_loss : tensor R)
| PrintStopped.

(** The random generator: the standard normal draws still to come. *)
Definition rng : Type := nat -> R.

Record world : Type := World {
  noise : rng;
  trace : list event
}.

(** A computation over a state [S] that may raise; the state reached is kept
    in both cases. *)
Definition ST (S A : Type) : Type := S -> result A * S.

Definition ret {S A : Type} (a : A) : ST S A := fun s => (Ok a, s).

Definition bind {S A B : Type} (c : ST S A) (k : A -> ST S B) : ST S B :=
  fun s =>
    match c s with
    | (Ok a, s') => k a s'
    | (Raise e, s') => (Raise e, s')
    end.

Definition liftR {S A : Type} (r : result A) : ST S A := fun s => (r, s).

Declare Scope st_scope.
Delimit Scope st_scope with st.
Notation "x <- c ;; k" := (bind c (fun x => k))
  (at level 61, c at next level, right associativity) : st_scope.
Notation "' pat <- c ;; k" := (bind c (fun x => match x with pat => k end))
  (at level 61, pat pattern, c at next level, right associativity) : st_scope.

(** Computations that only draw random numbers, and computations that also
    extend the trace. *)
Definition Rand (A : Type) : Type := ST rng A.
Definition M (A : Type) : Type := ST world A.

Definition liftN {A : Type} (c : Rand A) : M A :=
  fun w => let (r, g) := c (noise w) in (r, World g (trace w)).

Definition emit (e : event) : M unit :=
  fun w => (Ok tt, World (noise w) (trace w ++ [e])).

Definition get_noise : M rng := fun w => (Ok (noise w), w).

(** The raw generator behind [tf.random.normal]: as many standard normal
    draws as the shape has entries, laid out in row-major order. *)
Definition random_standard_normal (s : list nat) : Rand (tensor R) :=
  fun g =>
    (Ok (Tensor s (fun idx => g (flat_index s idx))),
     fun k => g (numel s + k)).

(** [tf.random.normal(shape, mean=..., stddev=...)]: TensorFlow draws
    standard normal noise of the requested shape, multiplies it by [stddev]
    and adds [mean], both broadcast. *)
Definition random_normal (dims : list Z) (mean stddev : tensor R)
  : Rand (tensor R) :=
  (s <- liftR (as_shape dims) ;;
   rnd <- random_standard_normal s ;;
   mul <- liftR (tmul rnd stddev) ;;
   liftR (tadd mul mean))%st.

(** [tf.zeros(shape)]. *)
Definition tf_zeros (dims : list Z) : result (tensor R) :=
  (s <-? as_shape dims ;; Ok (zeros s))%result.

(** [tf.Variable(t)]. *)
Definition tf_Variable (t : tensor R) : M (tensor R) :=
  (_ <- emit (NewVariable (shape t)) ;; ret t)%st.

(** ** The model *)

Record MLPVariationalAutoEncoder : Type := Model {
  _params : list (string * tensor R)
}.

(** [d[key]] on a dictionary. *)
Fixpoint lookup {A : Type} (key : string) (d : list (string * A)) : result A :=
  match d with
  | [] => Raise KeyError
  | (k, v) :: d' => if String.eqb key k then Ok v else lookup key d'
  end.

(** [input_dim - (input_dim - code_dim) / 4] and
    [input_dim - 3 * (input_dim - code_dim) / 4], before [int] is applied:
    the integers are subtracted and multiplied exactly, the division of an
    integer by 4 gives a float, and [input_dim] is converted to a float for
    the subtraction. *)
Definition hidden_1_float (input_dim code_dim : Z) : Q :=
  float_sub (float_of_int input_dim) (true_div (input_dim - code_dim) 4).

Definition hidden_2_float (input_dim code_dim : Z) : Q :=
  float_sub (float_of_int input_dim)
            (true_div (3 * (input_dim - code_dim)) 4).

Definition hidden_1_dim (input_dim code_dim : Z) : Z :=
  py_int (hidden_1_float input_dim code_dim).

Definition hidden_2_dim (input_dim code_dim : Z) : Z :=
  py_int (hidden_2_float input_dim code_dim).

(** [tf.Variable(tf.random.normal(dims, mean=0.0, stddev=0.05))]. *)
Definition normal_variable (dims : list Z) : M (tensor R) :=
  (t <- liftN (random_normal dims (scalar 0%R) (scalar (5 / 100)%R)) ;;
   tf_Variable t)%st.

(** [tf.Variable(tf.zeros(dims))]. *)
Definition zeros_variable (dims : list Z) : M (tensor R) :=
  (t <- liftR (tf_zeros dims) ;; tf_Variable t)%st.

Definition __init__ (input_dim code_dim : Z) : M MLPVariationalAutoEncoder :=
  (_ <- liftR (assertR (code_dim <? input_dim)%Z) ;;
   let h1 := hidden_1_dim input_dim code_dim in
   let h2 := hidden_2_dim input_dim code_dim in
   enc_W0 <- normal_variable [h1; input_dim] ;;
   enc_b0 <- zeros_variable [h1; 1%Z] ;;
   enc_W1 <- normal_variable [h2; h1] ;;
   enc_b1 <- zeros_variable [h2; 1%Z] ;;
   enc_W2 <- normal_variable [(code_dim * 2)%Z; h2] ;;
   enc_b2 <- zeros_variable [(code_dim * 2)%Z; 1%Z] ;;
   dec_W0 <- normal_variable [h2; code_dim] ;;
   dec_b0 <- zeros_variable [h2; 1%Z] ;;
   dec_W1 <- normal_variable [h1; h2] ;;
   dec_b1 <- zeros_variable [h1; 1%Z] ;;
   dec_W2 <- normal_variable [input_dim; h1] ;;
   dec_b2 <- zeros_variable [input_dim; 1%Z] ;;
   ret (Model
     [("enc_W0", enc_W0); ("enc_b0", enc_b0);
      ("enc_W1", enc_W1); ("enc_b1", enc_b1);
      ("enc_W2", enc_W2); ("enc_b2", enc_b2);
      ("dec_W0", dec_W0); ("dec_b0", dec_b0);
      ("dec_W1", dec_W1); ("dec_b1", dec_b1);
      ("dec_W2", dec_W2); ("dec_b2", dec_b2)]%string))%st.

(** [activation(tf.matmul(W, x, transpose_b=...) + b)]. *)
Definition dense (activation : R -> R) (W x b : tensor R) (transpose_b : bool)
  : result (tensor R) :=
  (product <-? matmul W x transpose_b ;;
   sum <-? tadd product b ;;
   Ok (tmap activation sum))%result.

(** The last linear layer of the encoder, transposed back to one row for each
    example: [encoded_distribution] in the source. *)
Definition encoded_distribution (self : MLPVariationalAutoEncoder)
    (inputs : tensor R) : result (tensor R) :=
  (enc_W0 <-? lookup "enc_W0" (_params self) ;;
   enc_b0 <-? lookup "enc_b0" (_params self) ;;
   hidden_layer_1 <-? dense leaky_relu enc_W0 inputs enc_b0 true ;;
   enc_W1 <-? lookup "enc_W1" (_params self) ;;
   enc_b1 <-? lookup "enc_b1" (_params self) ;;
   hidden_layer_2 <-? dense leaky_relu enc_W1 hidden_layer_1 enc_b1 false ;;
   enc_W2 <-? lookup "enc_W2" (_params self) ;;
   enc_b2 <-? lookup "enc_b2" (_params self) ;;
   linear <-? dense (fun x => x) enc_W2 hidden_layer_2 enc_b2 false ;;
   Ok (transpose linear))%result.

Definition encode (self : MLPVariationalAutoEncoder) (inputs : tensor R)
  : result (tensor R * tensor R) :=
  (encoded <-? encoded_distribution self inputs ;;
   width <-? shape_at encoded 1 ;;
   code_dim <-? int_div (Z.of_nat width) 2 ;;
   mean <-? cols_to (Z.to_nat code_dim) encoded ;;
   tail <-? cols_from (Z.to_nat code_dim) encoded ;;
   let stddev := tmap Rabs tail in
   Ok (mean, stddev))%result.

Definition sample_encoding (mean stddev : tensor R) : Rand (tensor R) :=
  (_ <- liftR (assertR (if list_eq_dec Nat.eq_dec (shape mean) (shape stddev)
                        then true else false)) ;;
   rows <- liftR (shape_at mean 0) ;;
   cols <- liftR (shape_at mean 1) ;;
   random_normal [Z.of_nat rows; Z.of_nat cols] mean stddev)%st.

Definition decode (self : MLPVariationalAutoEncoder)
    (sampled_encoding : tensor R) : result (tensor R) :=
  (dec_W0 <-? lookup "dec_W0" (_params self) ;;
   dec_b0 <-? lookup "dec_b0" (_params self) ;;
   hidden_layer_1 <-? dense leaky_relu dec_W0 sampled_encoding dec_b0 true ;;
   dec_W1 <-? lookup "dec_W1" (_params self) ;;
   dec_b1 <-? lookup "dec_b1" (_params self) ;;
   hidden_layer_2 <-? dense leaky_relu dec_W1 hidden_layer_1 dec_b1 false ;;
   dec_W2 <-? lookup "dec_W2" (_params self) ;;
   dec_b2 <-? lookup "dec_b2" (_params self) ;;
   activated <-? dense sigmoid dec_W2 hidden_layer_2 dec_b2 false ;;
   Ok (transpose activated))%result.

(** ** The loss *)

(** [tfp.distributions.Normal(loc, scale)]. *)
Record Normal : Type := NormalDistribution {
  loc : tensor R;
  scale : tensor R
}.

Section Loss.

(** [tf.losses.kullback_leibler_divergence], applied to two [Normal]
    values: a library call, whose result the model does not fix. *)
Variable kullback_leibler_divergence : Normal -> Normal -> result (tensor R).

Definition loss (self : MLPVariationalAutoEncoder) (inputs : tensor R)
  : Rand (tensor R) :=
  (encoding <- liftR (encode self inputs) ;;
   let mean := fst encoding in
   let stddev := snd encoding in
   kl_divergence <- liftR (kullback_leibler_divergence
                             (NormalDistribution (scalar 0%R) (scalar 1%R))
                             (NormalDistribution mean stddev)) ;;
   encoded <- sample_encoding mean stddev ;;
   decoded <- liftR (decode self encoded) ;;
   errors <- liftR (mean_squared_error inputs decoded) ;;
   let mean_square_error := reduce_mean errors in
   liftR (weighted <-? tmul (scalar 3%R) mean_square_error ;;
          total <-? tadd weighted kl_divergence ;;
          tdiv total (scalar 4%R))%result)%st.

End Loss.

(** ** Training *)

(** [for x in xs: body], threading the value the body updates. *)
Fixpoint for_each {S A X : Type} (xs : list X) (body : X -> A -> ST S A) (a : A)
  : ST S A :=
  match xs with
  | [] => ret a
  | x :: xs' => (a' <- body x a ;; for_each xs' body a')%st
  end.

(** The same loop when the body may [break]: it returns [true] to leave. *)
Fixpoint for_break {S A X : Type} (xs : list X)
    (body : X -> A -> ST S (A * bool)) (a : A) : ST S A :=
  match xs with
  | [] => ret a
  | x :: xs' =>
      (r <- body x a ;;
       if snd r then ret (fst r) else for_break xs' body (fst r))%st
  end.

(** [range(start, stop)]. *)
Definition range (start stop : Z) : list Z :=
  map (fun k => (start + Z.of_nat k)%Z) (seq 0 (Z.to_nat (stop - start))).

Fixpoint mapR {A B : Type} (f : A -> result B) (l : list A) : result (list B) :=
  match l with
  | [] => Ok []
  | x :: l' => (y <-? f x ;; ys <-? mapR f l' ;; Ok (y :: ys))%result
  end.

(** Writing the values an optimizer computed back into the variables they
    belong to, in order. *)
Fixpoint assign_all (params : list (string * tensor R)) (values : list (tensor R))
  : list (string * tensor R) :=
  match params, values with
  | (k, _) :: params', v :: values' => (k, v) :: assign_all params' values'
  | _, _ => params
  end.

(** [epoch_num > 15 and val_loss - train_loss > train_loss / 32], as the
    [if] statement reads it. *)
Definition early_stop (epoch_num : Z) (train_loss val_loss : tensor R)
  : result bool :=
  if (15 <? epoch_num)%Z then
    (gap <-? tsub val_loss train_loss ;;
     bound <-? tdiv train_loss (scalar 32%R) ;;
     exceeds <-? tgreater gap bound ;;
     truth exceeds)%result
  else Ok false.

Section Trainer.

(** [self.loss]: the trainer is verified for any loss method, and
    instantiated with the one of the class below. *)
Variable loss_method : MLPVariationalAutoEncoder -> tensor R -> Rand (tensor R).

(** The optimizer, an external collaborator: its state, and
    [apply_gradients], which maps gradient and variable pairs to its next
    state and the new values of the variables. *)
Variable optimizer : Type.
Variable apply_gradients :
  optimizer -> list (tensor R * tensor R) -> optimizer * list (tensor R).

(** [GradientTape.gradient] of the loss of a batch, started with the
    generator in a given state, with respect to the parameter of a given
    name. *)
Variable gradient :
  MLPVariationalAutoEncoder -> tensor R -> rng -> string -> tensor R.

Definition _training_step (st : MLPVariationalAutoEncoder * optimizer)
    (inputs : tensor R) : M (MLPVariationalAutoEncoder * optimizer) :=
  let self := fst st in
  (_ <- emit (TrainingStep inputs) ;;
   tape <- get_noise ;;
   current_loss <- liftN (loss_method self inputs) ;;
   let grads :=
     map (fun kv => (fst kv, gradient self inputs tape (fst kv)))
         (_params self) in
   grads_and_vars <- liftR (mapR (fun key =>
                         (g <-? lookup key grads ;;
                          v <-? lookup key (_params self) ;;
                          Ok (g, v))%result)
                       (map fst grads)) ;;
   _ <- emit ApplyGradients ;;
   let applied := apply_gradients (snd st) grads_and_vars in
   ret (Model (assign_all (_params self) (snd applied)), fst applied))%st.

Variables (inputs val_inputs : tensor R) (num_epochs batch_size : Z).

(** The inner loop of [train]: one training step for each full batch. *)
Definition train_batches (st : MLPVariationalAutoEncoder * optimizer)
  : M (MLPVariationalAutoEncoder * optimizer) :=
  (rows <- liftR (shape_at inputs 0) ;;
   count <- liftR (int_div (Z.of_nat rows) batch_size) ;;
   for_each (range 0 count)
     (fun batch_num st =>
        inputs_batch <- liftR (rows_slice (batch_num * batch_size)
                                 (batch_num * batch_size + batch_size)
                                 inputs) ;;
        _training_step st inputs_batch)
     st)%st.

(** The body of the outer loop; the flag tells whether it ended in
    [break]. *)
Definition train_epoch (epoch_num : Z)
    (st : MLPVariationalAutoEncoder * optimizer)
  : M ((MLPVariationalAutoEncoder * optimizer) * bool) :=
  (st' <- train_batches st ;;
   train_loss <- liftN (loss_method (fst st') inputs) ;;
   val_loss <- liftN (loss_method (fst st') val_inputs) ;;
   _ <- emit (PrintEpoch epoch_num num_epochs train_loss val_loss) ;;
   stop <- liftR (early_stop epoch_num train_loss val_loss) ;;
   if stop then (_ <- emit PrintStopped ;; ret (st', true))
   else ret (st', false))%st.

Definition train (st : MLPVariationalAutoEncoder * optimizer)
  : M (MLPVariationalAutoEncoder * optimizer) :=
  for_break (range 1 (num_epochs + 1)) train_epoch st.

End Trainer.

(** The trainer of the class: [train] with the class's own [loss]. *)
Definition vae_train (kl : Normal -> Normal -> result (tensor R)) :=
  train (loss kl).

(** ** Vocabulary of the specification *)

(** The interpolation formulas for the two hidden widths, as the
    specification writes them: exact quotients. *)
Definition interpolation_1 (input_dim code_dim : Z) : Q :=
  (inject_Z input_dim - inject_Z (input_dim - code_dim) / 4)%Q.

Definition interpolation_2 (input_dim code_dim : Z) : Q :=
  (inject_Z input_dim - 3 * inject_Z (input_dim - code_dim) / 4)%Q.

Definition param_names : list string :=
  ["enc_W0"; "enc_b0"; "enc_W1"; "enc_b1"; "enc_W2"; "enc_b2";
   "dec_W0"; "dec_b0"; "dec_W1"; "dec_b1"; "dec_W2"; "dec_b2"]%string.

Definition param_shapes (self : MLPVariationalAutoEncoder) : list (list nat) :=
  map (fun kv => shape (snd kv)) (_params self).

(** The shapes of the twelve parameters, in the order of [param_names], for
    layers of widths [input_dim], [h1], [h2] and [code_dim]. *)
Definition layer_shapes (input_dim h1 h2 code_dim : nat) : list (list nat) :=
  [[h1; input_dim]; [h1; 1]; [h2; h1]; [h2; 1];
   [code_dim * 2; h2]; [code_dim * 2; 1];
   [h2; code_dim]; [h2; 1]; [h1; h2]; [h1; 1];
   [input_dim; h1]; [input_dim; 1]].

(** A valid model: the twelve parameters under their names, shaped for some
    hidden widths.  [__init__] builds one, and an optimizer step that keeps
    the shape of every variable keeps it valid. *)
Definition valid_model (input_dim code_dim : nat)
    (self : MLPVariationalAutoEncoder) : Prop :=
  map fst (_params self) = param_names /\
  exists h1 h2, param_shapes self = layer_shapes input_dim h1 h2 code_dim.

(** Construction from a given world succeeds, and the twelve parameters it
    stores are shaped for the hidden widths [h1] and [h2]. *)
Definition built_with (input_dim code_dim : Z) (w : world) (h1 h2 : Z) : Prop :=
  exists self w',
    __init__ input_dim code_dim w = (Ok self, w') /\
    length (_params self) = 12 /\
    map fst (_params self) = param_names /\
    param_shapes self
    = layer_shapes (Z.to_nat input_dim) (Z.to_nat h1) (Z.to_nat h2)
                   (Z.to_nat code_dim).

(** A generator that only returns zeros, and the world a program starts
    in with it. *)
Definition zero_rng : rng := fun _ => 0%R.
Definition initial_world : world := World zero_rng [].

(** A model whose parameters are all zero. *)
Definition zero_model (input_dim h1 h2 code_dim : nat)
  : MLPVariationalAutoEncoder :=
  Model (combine param_names
           (map zeros (layer_shapes input_dim h1 h2 code_dim))).

Definition ones (s : list nat) : tensor R := Tensor s (fun _ => 1%R).

(** The zero model for inputs of width 2 and codes of width 1, with the bias
    of the last encoder layer set to one: it encodes every input as mean 1
    and standard deviation 1. *)
Definition unit_code_model : MLPVariationalAutoEncoder :=
  Model (map (fun kv =>
                if String.eqb (fst kv) "enc_b2"
                then (fst kv, ones (shape (snd kv)))
                else kv)
             (_params (zero_model 2 1 1 1))).

(** The sampler as the specification words it: sample standard noise, then
    shift and scale it, [mean + stddev * noise]. *)
Definition reparameterized_sample (mean stddev : tensor R) : Rand (tensor R) :=
  (standard_noise <- random_standard_normal (shape mean) ;;
   liftR (scaled <-? tmul stddev standard_noise ;;
          tadd mean scaled)%result)%st.

(** [t] with the entry at [idx] replaced by [x]. *)
Definition with_entry (t : tensor R) (idx : list nat) (x : R) : tensor R :=
  Tensor (shape t) (fun idx' =>
    if list_eq_dec Nat.eq_dec idx' idx then x else item t idx').

(** The entry at [idx] of the sample drawn by [sample_encoding]. *)
Definition sample_value (mean stddev : tensor R) (g : rng) (idx : list nat) : R :=
  match fst (sample_encoding mean stddev g) with
  | Ok t => item t idx
  | Raise _ => 0%R
  end.

(** Modelled from the spec: the library call behind
    [kullback_leibler_divergence] is not part of the sources; section 4.5
    describes its result as the KL divergence between the two normal
    distributions, per coordinate.  For [p = N(m1, s1)] and [q = N(m2, s2)]
    that is [ln (s2 / s1) + (s1^2 + (m1 - m2)^2) / (2 s2^2) - 1/2], with the
    parameters broadcast against each other. *)
Definition normal_kl_entry (p q : R * R) : R :=
  (ln (snd q / snd p)
   + (snd p * snd p + (fst p - fst q) * (fst p - fst q)) / (2 * (snd q * snd q))
   - 1 / 2)%R.

Definition normal_kl (p q : Normal) : result (tensor R) :=
  (pp <-? tmap2 pair (loc p) (scale p) ;;
   qq <-? tmap2 pair (loc q) (scale q) ;;
   tmap2 normal_kl_entry pp qq)%result.

(** Whether a tensor is a single scalar. *)
Definition is_scalar {A : Type} (t : tensor A) : Prop := shape t = [].

(** The early-stopping condition on two scalar losses:
    [val_loss - train_loss > train_loss / 32]. *)
Definition diverged (train_loss val_loss : tensor R) : Prop :=
  is_scalar train_loss /\ is_scalar val_loss /\
  (item val_loss [] - item train_loss [] > item train_loss [] / 32)%R.

(** Batch number [k] of a training set, for the batch size [b]:
    [inputs[k * b : k * b + b]]. *)
Definition batch_of (inputs : tensor R) (b : Z) (k : nat) : tensor R :=
  match rows_slice (Z.of_nat k * b) (Z.of_nat k * b + b) inputs with
  | Ok t => t
  | Raise _ => inputs
  end.

(** The calls one epoch makes for its batches, when the training set has
    [n] rows and the batch size is [b]: a training step on each of the
    [n / b] full batches, each followed by one optimizer call. *)
Definition epoch_steps (inputs : tensor R) (b : Z) (n : nat) : list event :=
  flat_map (fun k => [TrainingStep (batch_of inputs b k); ApplyGradients])
           (seq 0 (n / Z.to_nat b)).

(** The trace of the epochs a run completed, given the losses each one
    reported: for each, its steps and then its report. *)
Definition epochs_trace (inputs : tensor R) (b : Z) (n : nat) (num_epochs : Z)
    (reports : list (Z * (tensor R * tensor R))) : list event :=
  flat_map (fun r => epoch_steps inputs b n
                     ++ [PrintEpoch (fst r) num_epochs (fst (snd r)) (snd (snd r))])
           reports.

(** The events of the inner loop. *)
Definition is_step (e : event) : Prop :=
  match e with
  | TrainingStep _ | ApplyGradients => True
  | _ => False
  end.

(** Stand-ins for the collaborators, to run the trainer on simulated
    losses: a loss that reports the number of rows of its input, a tape whose
    gradients are zero, and an optimizer that leaves every variable as it
    is. *)
Definition rows_loss (self : MLPVariationalAutoEncoder) (x : tensor R)
  : Rand (tensor R) :=
  ret (scalar (INR (hd 0 (shape x)))).

Definition zero_gradient (self : MLPVariationalAutoEncoder) (x : tensor R)
    (g : rng) (key : string) : tensor R :=
  scalar 0%R.

Definition idle_apply_gradients (o : unit) (pairs : list (tensor R * tensor R))
  : unit * list (tensor R) :=
  (tt, map snd pairs).

Abbreviation simulated_train :=
  (train rows_loss unit idle_apply_gradients zero_gradient).

(** A simulated run: one training example and two validation examples, so
    that the simulated losses are 1 and 2 at every epoch, and what such a run
    traces before the report of epoch 16. *)
Definition simulated_start : MLPVariationalAutoEncoder * unit :=
  (zero_model 2 1 1 1, tt).

Definition simulated_prefix : list event :=
  flat_map (fun k => [TrainingStep (batch_of (zeros [1; 2]) 1 0);
                      ApplyGradients;
                      PrintEpoch (Z.of_nat k) 32 (scalar (INR 1)) (scalar (INR 2))])
           (seq 1 15)
  ++ [TrainingStep (batch_of (zeros [1; 2]) 1 0); ApplyGradients].

(** An optimizer whose [apply_gradients] returns, for each pair it is given,
    a new value of the shape of the variable, as gradient descent and its
    variants do. *)
Definition keeps_shapes {optimizer : Type}
    (apply_gradients :
       optimizer -> list (tensor R * tensor R) -> optimizer * list (tensor R))
  : Prop :=
  forall o pairs,
    map shape (snd (apply_gradients o pairs))
    = map (fun p => shape (snd p)) pairs.

(** A simulated loss that is not reduced to a scalar: two entries, whatever
    the batch. *)
Definition vector_loss (self : MLPVariationalAutoEncoder) (x : tensor R)
  : Rand (tensor R) :=
  ret (zeros [2]).

(** * Properties *)

(** ** Python numbers *)

Lemma Qle_bool_comp (a x y : Q) : (x == y)%Q -> Qle_bool a x = Qle_bool a y.
Proof.
  intros E. destruct (Qle_bool a x) eqn:A, (Qle_bool a y) eqn:A'; auto.
  - apply Qle_bool_iff in A. rewrite E in A. apply Qle_bool_iff in A. congruence.
  - apply Qle_bool_iff in A'. rewrite <- E in A'. apply Qle_bool_iff in A'.
    congruence.
Qed.

Lemma py_int_comp (q q' : Q) : (q == q')%Q -> py_int q = py_int q'.
Proof.
  intros E. unfold py_int. rewrite (Qle_bool_comp 0 q q' E).
  destruct (Qle_bool 0 q'); [apply Qfloor_comp | apply Qceiling_comp]; exact E.
Qed.

(** Truncation of a fraction is the truncating quotient of [Z]. *)
Lemma py_int_frac (n : Z) (d : positive) : py_int (n # d) = Z.quot n (Z.pos d).
Proof.
  unfold py_int, Qle_bool, Qceiling, Qfloor. cbn [Qnum Qden Qopp].
  destruct (Z.leb_spec (0 * Z.pos d) (n * 1)).
  - rewrite Z.quot_div_nonneg by lia. reflexivity.
  - rewrite <- (Z.opp_involutive n) at 2. rewrite Z.quot_opp_l by lia.
    rewrite Z.quot_div_nonneg by lia. reflexivity.
Qed.

Lemma int_div_quot (n d : Z) : d <> 0%Z -> int_div n d = Ok (Z.quot n d).
Proof.
  intros Hd. unfold int_div.
  destruct (Z.eqb_spec d 0) as [|_]; [contradiction|]. f_equal.
  destruct d as [|p|p]; [contradiction| |].
  - rewrite <- py_int_frac. apply py_int_comp.
    unfold Qeq, Qdiv, Qmult, Qinv, inject_Z. cbn -[Z.mul]. lia.
  - change (Z.neg p) with (- Z.pos p)%Z. rewrite Z.quot_opp_r by lia.
    rewrite <- Z.quot_opp_l by lia. rewrite <- py_int_frac. apply py_int_comp.
    unfold Qeq, Qdiv, Qmult, Qinv, inject_Z. cbn -[Z.mul]. lia.
Qed.

(** *** Rounding to binary64 *)

Lemma pow2_pos (k : Z) : (0 < pow2 k)%Q.
Proof. apply Qpower_0_lt. reflexivity. Qed.

Lemma pow2_add (a b : Z) : (pow2 (a + b) == pow2 a * pow2 b)%Q.
Proof. apply Qpower_plus. discriminate. Qed.

Lemma pow2_le (a b : Z) : (a <= b)%Z -> (pow2 a <= pow2 b)%Q.
Proof. intros H. apply Qpower_le_compat_l; [exact H|discriminate]. Qed.

Lemma pow2_lt_inv (a b : Z) : (pow2 a < pow2 b)%Q -> (a < b)%Z.
Proof. intros H. apply (Qpower_lt_compat_l_inv 2); [exact H|reflexivity]. Qed.

Lemma pow2_inject (k : Z) : (0 <= k)%Z -> (pow2 k == inject_Z (2 ^ k))%Q.
Proof. intros H. unfold pow2. now rewrite Zpower_Qpower. Qed.

Lemma pow2_opp (k : Z) : (pow2 (- k) * pow2 k == 1)%Q.
Proof.
  rewrite <- pow2_add. replace (- k + k)%Z with 0%Z by lia. reflexivity.
Qed.

(** The binade of a positive number holds it. *)
Lemma binade_spec (x : Q) :
  (0 < x)%Q -> (pow2 (binade x) <= x < pow2 (binade x + 1))%Q.
Proof.
  intros Hx. unfold binade. destruct (Qle_bool 1 x) eqn:B.
  - apply Qle_bool_iff in B.
    pose proof (Qfloor_le x) as Hl. pose proof (Qlt_floor x) as Hu.
    assert (Hf : (1 <= Qfloor x)%Z).
    { change 1%Z with (Qfloor 1). now apply Qfloor_resp_le. }
    destruct (Z.log2_spec (Qfloor x) ltac:(lia)) as [L U].
    pose proof (Z.log2_nonneg (Qfloor x)) as Hn.
    rewrite !pow2_inject by lia. split.
    + apply Qle_trans with (inject_Z (Qfloor x)); [|exact Hl].
      now rewrite <- Zle_Qle.
    + apply Qlt_le_trans with (inject_Z (Qfloor x + 1)); [exact Hu|].
      rewrite <- Zle_Qle. unfold Z.succ in U. lia.
  - assert (B' : (x < 1)%Q).
    { apply Qnot_le_lt. intros H. apply Qle_bool_iff in H. congruence. }
    assert (Hxy : (x * / x == 1)%Q) by (apply Qmult_inv_r; Lqa.lra).
    assert (Hy : (1 < / x)%Q) by Lqa.nra.
    pose proof (Qle_ceiling (/ x)) as Hu. pose proof (Qceiling_lt (/ x)) as Hl.
    set (m := Qceiling (/ x)) in *.
    assert (Hm : (1 < m)%Z).
    { rewrite Zlt_Qlt. change (inject_Z 1) with 1%Q. Lqa.lra. }
    destruct (Z.log2_up_spec m Hm) as [L U].
    set (k := Z.log2_up m) in *.
    assert (Hk : (0 < k)%Z) by (apply Z.log2_up_pos; lia).
    pose proof (pow2_opp k) as E1. pose proof (pow2_pos (- k)) as P1.
    pose proof (pow2_opp (k - 1)) as E2. pose proof (pow2_pos (- (k - 1))) as P2.
    replace (- k + 1)%Z with (- (k - 1))%Z by lia.
    rewrite (pow2_inject k) in E1 by lia.
    rewrite (pow2_inject (k - 1)) in E2 by lia.
    rewrite Zle_Qle in U.
    replace (Z.pred k) with (k - 1)%Z in L by lia.
    assert (L' : (inject_Z (2 ^ (k - 1)) < / x)%Q).
    { apply Qle_lt_trans with (inject_Z (m - 1)); [|exact Hl].
      rewrite <- Zle_Qle. lia. }
    split; Lqa.nra.
Qed.

Lemma binade_comp (x y : Q) : (x == y)%Q -> binade x = binade y.
Proof.
  intros E. unfold binade. rewrite (Qle_bool_comp 1 x y E).
  rewrite (Qfloor_comp x y E).
  rewrite (Qceiling_comp (/ x) (/ y)) by (now rewrite E). reflexivity.
Qed.

Lemma round_half_even_comp (x y : Q) :
  (x == y)%Q -> round_half_even x = round_half_even y.
Proof.
  intros E. unfold round_half_even. rewrite (Qfloor_comp x y E).
  now rewrite (Qcompare_comp (x - inject_Z (Qfloor y))%Q (y - inject_Z (Qfloor y))%Q
                 ltac:(now rewrite E) (1 # 2)%Q (1 # 2)%Q ltac:(reflexivity)).
Qed.

Lemma binary64_comp (x y : Q) : (x == y)%Q -> (binary64 x == binary64 y)%Q.
Proof.
  intros E. unfold binary64.
  rewrite (binade_comp (Qabs x) (Qabs y)) by (now rewrite E).
  set (u := pow2 _).
  now rewrite (round_half_even_comp (x / u) (y / u)) by (now rewrite E).
Qed.

Lemma round_half_even_Z (m : Z) : round_half_even (inject_Z m) = m.
Proof.
  unfold round_half_even. rewrite Qfloor_Z.
  replace (inject_Z m - inject_Z m ?= 1 # 2)%Q with Lt; [reflexivity|].
  symmetry. apply Qlt_alt.
  setoid_replace (inject_Z m - inject_Z m)%Q with 0%Q by ring. reflexivity.
Qed.

Lemma round_half_even_near (x : Q) :
  (x - (1 # 2) <= inject_Z (round_half_even x) <= x + (1 # 2))%Q.
Proof.
  unfold round_half_even.
  pose proof (Qfloor_le x) as Hl. pose proof (Qlt_floor x) as Hu.
  rewrite inject_Z_plus in Hu. change (inject_Z 1) with 1%Q in Hu.
  destruct (x - inject_Z (Qfloor x) ?= 1 # 2)%Q eqn:C.
  - apply Qeq_alt in C. destruct (Z.even (Qfloor x));
      rewrite ?inject_Z_plus; change (inject_Z 1) with 1%Q; Lqa.lra.
  - apply Qlt_alt in C. Lqa.lra.
  - apply Qgt_alt in C. rewrite inject_Z_plus. change (inject_Z 1) with 1%Q. Lqa.lra.
Qed.

Lemma round_half_even_nonneg (x : Q) :
  (0 <= x)%Q -> (0 <= round_half_even x)%Z.
Proof.
  intros Hx. unfold round_half_even.
  assert (H : (0 <= Qfloor x)%Z).
  { change 0%Z with (Qfloor 0). now apply Qfloor_resp_le. }
  destruct (_ ?= _)%Q; [destruct (Z.even _)| |]; lia.
Qed.

Lemma py_int_nonneg (q : Q) : (0 <= q)%Q -> (0 <= py_int q)%Z.
Proof.
  intros Hq. unfold py_int. apply Qle_bool_iff in Hq. rewrite Hq.
  apply Qle_bool_iff in Hq. change 0%Z with (Qfloor 0). now apply Qfloor_resp_le.
Qed.

Lemma binary64_nonneg (x : Q) : (0 <= x)%Q -> (0 <= binary64 x)%Q.
Proof.
  intros Hx. unfold binary64. set (u := pow2 _).
  assert (Hu : (0 < u)%Q) by apply pow2_pos.
  apply Qmult_le_0_compat; [|Lqa.lra].
  change 0%Q with (inject_Z 0). rewrite <- Zle_Qle.
  apply round_half_even_nonneg. apply Qle_shift_div_l; [exact Hu|Lqa.lra].
Qed.

(** From 1/4 on, the unit in the last place is [2 ^ (binade - 52)]. *)
Lemma binade_normal (x : Q) :
  (1 # 4 <= x)%Q ->
  Z.max (binade (Qabs x) - 52) (-1074) = (binade x - 52)%Z /\
  (pow2 (binade x) <= x < pow2 (binade x + 1))%Q.
Proof.
  intros Hx. rewrite (binade_comp (Qabs x) x) by (apply Qabs_pos; Lqa.lra).
  destruct (binade_spec x ltac:(Lqa.lra)) as [L U]. split; [|now split].
  assert (H : (-2 < binade x + 1)%Z).
  { apply pow2_lt_inv. change (pow2 (-2)) with (1 # 4)%Q. Lqa.lra. }
  lia.
Qed.

(** Rounding moves a number by at most half a unit in the last place:
    relatively, by at most [2 ^ -53]. *)
Lemma binary64_error (x : Q) :
  (1 # 4 <= x)%Q ->
  (x - x * pow2 (-53) <= binary64 x <= x + x * pow2 (-53))%Q.
Proof.
  intros Hx. destruct (binade_normal x Hx) as [E [L _]].
  unfold binary64. rewrite E. set (e := binade x) in *.
  set (u := pow2 (e - 52)).
  assert (Hu : (0 < u)%Q) by apply pow2_pos.
  assert (Eu : (u == pow2 e * (2 * pow2 (-53)))%Q).
  { unfold u. replace (e - 52)%Z with (e + (-52))%Z by lia.
    rewrite pow2_add.
    assert (C : (pow2 (-52) == 2 * pow2 (-53))%Q) by (vm_compute; reflexivity).
    now rewrite C. }
  pose proof (round_half_even_near (x / u)) as [Rl Ru].
  assert (Ex : (x / u * u == x)%Q) by (field; Lqa.lra).
  set (r := inject_Z (round_half_even (x / u))) in *.
  assert (P : (0 < pow2 (-53))%Q) by apply pow2_pos.
  split; Lqa.nra.
Qed.

(** A number [q * 2 ^ k] whose [q] has at most 53 bits is a float: rounding
    leaves it as it is. *)
Lemma binary64_dyadic (x : Q) (q k : Z) :
  (x == inject_Z q * pow2 k)%Q -> (Z.abs q < 2 ^ 53)%Z -> (-1074 <= k)%Z ->
  (binary64 x == x)%Q.
Proof.
  intros Ex Hq Hk.
  destruct (Z.eq_dec q 0) as [->|Hz].
  { assert (E0 : (x == 0)%Q) by (rewrite Ex; ring).
    now rewrite (binary64_comp x 0 E0), E0. }
  pose proof (pow2_pos k) as Pk.
  assert (Ea : (Qabs x == inject_Z (Z.abs q) * pow2 k)%Q).
  { rewrite Ex, Qabs_Qmult, (Qabs_pos (pow2 k)) by Lqa.lra. reflexivity. }
  assert (Hq1 : (1 <= inject_Z (Z.abs q))%Q).
  { change 1%Q with (inject_Z 1). rewrite <- Zle_Qle. lia. }
  assert (Hq2 : (inject_Z (Z.abs q) < pow2 53)%Q).
  { rewrite pow2_inject, <- Zlt_Qlt by lia. exact Hq. }
  unfold binary64. rewrite (binade_comp _ _ Ea).
  destruct (binade_spec (inject_Z (Z.abs q) * pow2 k)) as [L _]; [Lqa.nra|].
  set (e := binade _) in *.
  assert (He : (e < 53 + k)%Z).
  { apply pow2_lt_inv. rewrite pow2_add. Lqa.nra. }
  set (s := Z.max (e - 52) (-1074)).
  assert (Hs : (0 <= k - s)%Z) by lia.
  assert (Ek : (pow2 k == pow2 s * inject_Z (2 ^ (k - s)))%Q).
  { rewrite <- pow2_inject, <- pow2_add by exact Hs. now replace (s + (k - s))%Z with k by lia. }
  pose proof (pow2_pos s) as Ps.
  set (u := pow2 s) in *. set (N := (2 ^ (k - s))%Z) in *.
  assert (Eq : (x / u == inject_Z (q * N))%Q).
  { rewrite inject_Z_mult, Ex, Ek. field. Lqa.lra. }
  rewrite (round_half_even_comp _ _ Eq), round_half_even_Z.
  rewrite inject_Z_mult, Ex, Ek. ring.
Qed.

Lemma float_of_int_exact (n : Z) :
  (Z.abs n < 2 ^ 53)%Z -> (float_of_int n == inject_Z n)%Q.
Proof.
  intros H. apply (binary64_dyadic _ n 0); [|exact H|lia].
  change (pow2 0) with 1%Q. ring.
Qed.

Lemma true_div_4_exact (n : Z) :
  (Z.abs n < 2 ^ 53)%Z -> (true_div n 4 == n # 4)%Q.
Proof.
  intros H. assert (E : (inject_Z n / inject_Z 4 == n # 4)%Q).
  { unfold Qeq, Qdiv, Qmult, Qinv, inject_Z. cbn -[Z.mul]. lia. }
  unfold true_div. rewrite <- E. apply (binary64_dyadic _ n (-2)); [|exact H|lia].
  rewrite E. change (pow2 (-2)) with (1 # 4)%Q.
  unfold Qeq, Qmult, inject_Z. cbn -[Z.mul]. lia.
Qed.

Lemma float_sub_exact (x y : Q) (n m : Z) :
  (x == inject_Z n)%Q -> (y == m # 4)%Q -> (Z.abs (4 * n - m) < 2 ^ 53)%Z ->
  (float_sub x y == (4 * n - m) # 4)%Q.
Proof.
  intros Ex Ey H. assert (E : (x - y == (4 * n - m) # 4)%Q).
  { rewrite Ex, Ey. unfold Qeq, Qminus, Qplus, Qopp, inject_Z. cbn -[Z.mul]. lia. }
  unfold float_sub. rewrite <- E.
  apply (binary64_dyadic _ (4 * n - m) (-2)); [|exact H|lia].
  rewrite E. change (pow2 (-2)) with (1 # 4)%Q.
  unfold Qeq, Qmult, inject_Z. cbn -[Z.mul]. lia.
Qed.

(** *** The widths of the hidden layers *)

Lemma interpolation_1_frac (i c : Z) :
  (interpolation_1 i c == (4 * i - (i - c)) # 4)%Q.
Proof.
  unfold interpolation_1, Qeq, Qminus, Qdiv, Qplus, Qmult, Qinv, Qopp, inject_Z.
  cbn -[Z.mul]. lia.
Qed.

Lemma interpolation_2_frac (i c : Z) :
  (interpolation_2 i c == (4 * i - 3 * (i - c)) # 4)%Q.
Proof.
  unfold interpolation_2, Qeq, Qminus, Qdiv, Qplus, Qmult, Qinv, Qopp, inject_Z.
  cbn -[Z.mul]. lia.
Qed.

(** For a code narrower than an input of width up to [2 ^ 51], the two
    expressions are computed without any rounding: the floats are the
    interpolation formulas. *)
Lemma hidden_1_float_frac (i c : Z) :
  (0 <= c < i)%Z -> (i <= 2 ^ 51)%Z ->
  (hidden_1_float i c == (4 * i - (i - c)) # 4)%Q.
Proof.
  intros Hc Hi. change (2 ^ 51)%Z with 2251799813685248%Z in *.
  apply float_sub_exact.
  - apply float_of_int_exact. change (2 ^ 53)%Z with 9007199254740992%Z. lia.
  - apply true_div_4_exact. change (2 ^ 53)%Z with 9007199254740992%Z. lia.
  - change (2 ^ 53)%Z with 9007199254740992%Z. lia.
Qed.

Lemma hidden_2_float_frac (i c : Z) :
  (0 <= c < i)%Z -> (i <= 2 ^ 51)%Z ->
  (hidden_2_float i c == (4 * i - 3 * (i - c)) # 4)%Q.
Proof.
  intros Hc Hi. change (2 ^ 51)%Z with 2251799813685248%Z in *.
  apply float_sub_exact.
  - apply float_of_int_exact. change (2 ^ 53)%Z with 9007199254740992%Z. lia.
  - apply true_div_4_exact. change (2 ^ 53)%Z with 9007199254740992%Z. lia.
  - change (2 ^ 53)%Z with 9007199254740992%Z. lia.
Qed.

Example hidden_dims_mnist :
  (hidden_1_dim 784 36, hidden_2_dim 784 36) = (597, 223)%Z.
Proof. vm_compute. reflexivity. Qed.

Example hidden_dims_truncated :
  (hidden_1_dim 5 2, hidden_2_dim 5 2) = (4, 2)%Z.
Proof. vm_compute. reflexivity. Qed.

(** In that range both hidden widths are floors of the formulas. *)
Lemma hidden_1_dim_div (i c : Z) :
  (0 <= c < i)%Z -> (i <= 2 ^ 51)%Z ->
  hidden_1_dim i c = ((4 * i - (i - c)) / 4)%Z.
Proof.
  intros H Hi. unfold hidden_1_dim.
  rewrite (py_int_comp _ _ (hidden_1_float_frac i c H Hi)), py_int_frac.
  apply Z.quot_div_nonneg; lia.
Qed.

Lemma hidden_2_dim_div (i c : Z) :
  (0 <= c < i)%Z -> (i <= 2 ^ 51)%Z ->
  hidden_2_dim i c = ((4 * i - 3 * (i - c)) / 4)%Z.
Proof.
  intros H Hi. unfold hidden_2_dim.
  rewrite (py_int_comp _ _ (hidden_2_float_frac i c H Hi)), py_int_frac.
  apply Z.quot_div_nonneg; lia.
Qed.

Lemma hidden_dims_ordered (i c : Z) :
  (0 <= c < i)%Z -> (i <= 2 ^ 51)%Z ->
  (c <= hidden_2_dim i c <= hidden_1_dim i c)%Z /\ (hidden_1_dim i c < i)%Z.
Proof.
  intros H Hi. rewrite hidden_1_dim_div, hidden_2_dim_div by assumption.
  repeat split.
  - apply Z.div_le_lower_bound; lia.
  - apply Z.div_le_mono; lia.
  - apply Z.div_lt_upper_bound; lia.
Qed.

(** Whatever the magnitudes, rounding cannot make the width of a hidden
    layer negative. *)
Lemma hidden_floats_nonneg (i c : Z) :
  (0 <= c < i)%Z ->
  (0 <= hidden_1_float i c)%Q /\ (0 <= hidden_2_float i c)%Q.
Proof.
  intros H.
  assert (Hi : (1 <= inject_Z i)%Q).
  { change 1%Q with (inject_Z 1). rewrite <- Zle_Qle. lia. }
  assert (Hd : (1 <= inject_Z (i - c) <= inject_Z i)%Q).
  { change 1%Q with (inject_Z 1). rewrite <- !Zle_Qle. lia. }
  pose proof (binary64_error (inject_Z i) ltac:(Lqa.lra)) as [Li _].
  assert (P : (pow2 (-53) == 1 # 9007199254740992)%Q) by reflexivity.
  rewrite P in Li.
  split; apply binary64_nonneg; unfold float_of_int, true_div.
  - pose proof (binary64_error (inject_Z (i - c) / inject_Z 4)) as B.
    unfold Qdiv in *. change (/ inject_Z 4)%Q with (1 # 4)%Q in *.
    rewrite P in B. destruct B as [_ B]; Lqa.lra.
  - pose proof (binary64_error (inject_Z (3 * (i - c)) / inject_Z 4)) as B.
    rewrite inject_Z_mult in *. unfold Qdiv in *.
    change (/ inject_Z 4)%Q with (1 # 4)%Q in *.
    change (inject_Z 3) with 3%Q in *.
    rewrite P in B. destruct B as [_ B]; Lqa.lra.
Qed.

Lemma hidden_dims_nonneg (i c : Z) :
  (0 <= c < i)%Z -> (0 <= hidden_1_dim i c)%Z /\ (0 <= hidden_2_dim i c)%Z.
Proof.
  intros H. destruct (hidden_floats_nonneg i c H).
  split; now apply py_int_nonneg.
Qed.



(** C10, as stated for every pair of integers, fails where binary64 rounds:
    for [input_dim = 2 ^ 51 + 1] and [code_dim = 2 ^ 51] the float
    [input_dim - 1 / 4] lies halfway between two floats and rounds to
    [input_dim], so that the first hidden width is not below [input_dim];
    and for [input_dim = 2 ^ 53 + 1] and [code_dim = 2 ^ 53] the second
    hidden width is [2 ^ 53 - 1], below [code_dim]. *)
Lemma hidden_widths_rounded :
  (0 < 2 ^ 51 < 2 ^ 51 + 1)%Z /\
  hidden_1_dim (2 ^ 51 + 1) (2 ^ 51) = (2 ^ 51 + 1)%Z /\
  ~ (hidden_1_dim (2 ^ 51 + 1) (2 ^ 51) < 2 ^ 51 + 1)%Z /\
  (0 < 2 ^ 53 < 2 ^ 53 + 1)%Z /\
  hidden_2_dim (2 ^ 53 + 1) (2 ^ 53) = (2 ^ 53 - 1)%Z /\
  ~ (2 ^ 53 <= hidden_2_dim (2 ^ 53 + 1) (2 ^ 53))%Z.
Proof.
  assert (E1 : hidden_1_dim (2 ^ 51 + 1) (2 ^ 51) = (2 ^ 51 + 1)%Z)
    by (vm_compute; reflexivity).
  assert (E2 : hidden_2_dim (2 ^ 53 + 1) (2 ^ 53) = (2 ^ 53 - 1)%Z)
    by (vm_compute; reflexivity).
  rewrite E1, E2.
  change (2 ^ 51)%Z with 2251799813685248%Z.
  change (2 ^ 53)%Z with 9007199254740992%Z. lia.
Qed.

(** ** Tensors *)

Lemma broadcast_rev_nil_r (l : list nat) : broadcast_rev l [] = Some l.
Proof. destruct l; reflexivity. Qed.

Lemma broadcast_rev_refl (l : list nat) : broadcast_rev l l = Some l.
Proof.
  induction l as [|a l IH]; [reflexivity|].
  cbn. rewrite Nat.eqb_refl, IH. reflexivity.
Qed.

Lemma broadcast_shapes_nil_r (s : list nat) : broadcast_shapes s [] = Some s.
Proof.
  unfold broadcast_shapes. cbn [rev]. rewrite broadcast_rev_nil_r. cbn.
  now rewrite rev_involutive.
Qed.

Lemma broadcast_shapes_nil_l (s : list nat) : broadcast_shapes [] s = Some s.
Proof.
  unfold broadcast_shapes. cbn. now rewrite rev_involutive.
Qed.

Lemma broadcast_shapes_refl (s : list nat) : broadcast_shapes s s = Some s.
Proof.
  unfold broadcast_shapes. rewrite broadcast_rev_refl. cbn.
  now rewrite rev_involutive.
Qed.

(** A bias column is broadcast over the examples of a batch. *)
Lemma broadcast_shapes_bias (h n : nat) :
  broadcast_shapes [h; n] [h; 1] = Some [h; n].
Proof.
  unfold broadcast_shapes. cbn. rewrite Nat.eqb_refl.
  destruct (Nat.eqb_spec n 1) as [->|Hn]; [reflexivity|].
  cbn. reflexivity.
Qed.

Lemma clamp_in_bounds (s idx : list nat) : in_bounds idx s -> clamp s idx = idx.
Proof.
  intros H. induction H as [|i d idx s Hi _ IH]; [reflexivity|].
  cbn. rewrite IH. destruct (Nat.eqb_spec d 1); [f_equal; lia | reflexivity].
Qed.

Lemma bidx_in_bounds (s idx : list nat) : in_bounds idx s -> bidx s idx = idx.
Proof.
  intros H. unfold bidx. rewrite (Forall2_length H), Nat.sub_diag. cbn.
  now apply clamp_in_bounds.
Qed.

Lemma bidx_nil (idx : list nat) : bidx [] idx = [].
Proof. reflexivity. Qed.

Lemma tmap2_same_shape {A B C : Type} (f : A -> B -> C)
    (a : tensor A) (b : tensor B) :
  shape a = shape b ->
  exists t, tmap2 f a b = Ok t /\ shape t = shape a /\
    forall idx, in_bounds idx (shape a) ->
      item t idx = f (item a idx) (item b idx).
Proof.
  intros E. unfold tmap2. rewrite <- E, broadcast_shapes_refl.
  eexists. split; [reflexivity|]. split; [reflexivity|].
  intros idx H. cbn. now rewrite bidx_in_bounds.
Qed.

Lemma tmap2_scalar_r {A B C : Type} (f : A -> B -> C) (a : tensor A) (y : B) :
  tmap2 f a (scalar y)
  = Ok (Tensor (shape a) (fun idx => f (item a (bidx (shape a) idx)) y)).
Proof. unfold tmap2. cbn [scalar shape]. now rewrite broadcast_shapes_nil_r. Qed.

Lemma tmap2_scalar_l {A B C : Type} (f : A -> B -> C) (x : A) (b : tensor B) :
  tmap2 f (scalar x) b
  = Ok (Tensor (shape b) (fun idx => f x (item b (bidx (shape b) idx)))).
Proof. unfold tmap2. cbn [scalar shape]. now rewrite broadcast_shapes_nil_l. Qed.

Lemma matmul_shape (a b : tensor R) (transpose_b : bool) (m k n : nat) :
  shape a = [m; k] ->
  shape b = (if transpose_b then [n; k] else [k; n]) ->
  exists t, matmul a b transpose_b = Ok t /\ shape t = [m; n].
Proof.
  intros Ha Hb. unfold matmul. rewrite Ha, Hb.
  destruct transpose_b; rewrite Nat.eqb_refl; eexists; split; reflexivity.
Qed.

(** A dense layer maps [n] examples to [n] columns of [h] activations. *)
Lemma dense_shape (activation : R -> R) (W x b : tensor R) (transpose_b : bool)
    (h k n : nat) :
  shape W = [h; k] ->
  shape x = (if transpose_b then [n; k] else [k; n]) ->
  shape b = [h; 1] ->
  exists t, dense activation W x b transpose_b = Ok t /\ shape t = [h; n] /\
    forall idx, exists z, item t idx = activation z.
Proof.
  intros HW Hx Hb. unfold dense.
  destruct (matmul_shape W x transpose_b h k n HW Hx) as (p & -> & Hp).
  cbn [bindR]. unfold tadd, tmap2. rewrite Hp, Hb, broadcast_shapes_bias.
  cbn [bindR]. eexists. split; [reflexivity|]. split; [reflexivity|].
  intros idx. cbn. eexists. reflexivity.
Qed.

(** ** The constructor *)

Lemma as_shape_raise (dims : list Z) (e : exn) :
  as_shape dims = Raise e -> e = InvalidArgumentError.
Proof.
  revert e. induction dims as [|d dims IH]; intros e; cbn; [discriminate|].
  destruct (d <? 0)%Z; [congruence|].
  destruct (as_shape dims); cbn; [discriminate|]. intros [= <-]. now apply IH.
Qed.

Lemma as_shape_pair (a b : Z) :
  (0 <= a)%Z -> (0 <= b)%Z -> as_shape [a; b] = Ok [Z.to_nat a; Z.to_nat b].
Proof.
  intros Ha Hb. cbn.
  destruct (Z.ltb_spec a 0); [lia|]. destruct (Z.ltb_spec b 0); [lia|].
  reflexivity.
Qed.

Lemma normal_variable_ok (dims : list Z) (s : list nat) (w : world) :
  as_shape dims = Ok s ->
  exists t, shape t = s /\
    normal_variable dims w
    = (Ok t, World (fun k => noise w (numel s + k)) (trace w ++ [NewVariable s])).
Proof.
  intros E. unfold normal_variable, random_normal, bind, liftN, liftR.
  rewrite E. unfold random_standard_normal, tmul, tadd.
  rewrite tmap2_scalar_r. cbn [shape]. rewrite tmap2_scalar_r.
  eexists. split; [|reflexivity]. reflexivity.
Qed.

Lemma zeros_variable_ok (dims : list Z) (s : list nat) (w : world) :
  as_shape dims = Ok s ->
  exists t, shape t = s /\
    zeros_variable dims w = (Ok t, World (noise w) (trace w ++ [NewVariable s])).
Proof.
  intros E. unfold zeros_variable, tf_zeros, bind, liftR. rewrite E.
  eexists. split; [|reflexivity]. reflexivity.
Qed.

(** Creating a variable either succeeds or rejects its shape. *)
Lemma normal_variable_cases (dims : list Z) (w : world) :
  (exists t w', normal_variable dims w = (Ok t, w')) \/
  normal_variable dims w = (Raise InvalidArgumentError, w).
Proof.
  destruct (as_shape dims) as [s|e] eqn:E.
  - left. destruct (normal_variable_ok dims s w E) as (t & _ & H). eauto.
  - right. apply as_shape_raise in E as E'. subst e.
    unfold normal_variable, random_normal, bind, liftN, liftR. rewrite E.
    destruct w; reflexivity.
Qed.

Lemma zeros_variable_cases (dims : list Z) (w : world) :
  (exists t w', zeros_variable dims w = (Ok t, w')) \/
  zeros_variable dims w = (Raise InvalidArgumentError, w).
Proof.
  destruct (as_shape dims) as [s|e] eqn:E.
  - left. destruct (zeros_variable_ok dims s w E) as (t & _ & H). eauto.
  - right. apply as_shape_raise in E as E'. subst e.
    unfold zeros_variable, tf_zeros, bind, liftR. rewrite E. reflexivity.
Qed.

Ltac create_variable :=
  match goal with
  | |- context [normal_variable ?dims ?w] =>
      destruct (normal_variable_cases dims w) as [(? & ? & ->) | ->];
      [|cbn; discriminate]
  | |- context [zeros_variable ?dims ?w] =>
      destruct (zeros_variable_cases dims w) as [(? & ? & ->) | ->];
      [|cbn; discriminate]
  end.

Lemma init_past_assertion (input_dim code_dim : Z) (w : world) :
  (code_dim < input_dim)%Z ->
  fst (__init__ input_dim code_dim w) <> Raise AssertionError.
Proof.
  intros H. unfold __init__, bind at 1, liftR, assertR.
  destruct (Z.ltb_spec code_dim input_dim) as [_|]; [|lia].
  cbv zeta. unfold bind, ret.
  do 12 create_variable. cbn. discriminate.
Qed.

(** C9: constructing a model fails with an assertion error if and only if
    [code_dim >= input_dim]; in that case the constructor stops at once: no
    model is returned, no variable has been created and no random number
    drawn. *)
Theorem init_assertion (input_dim code_dim : Z) (w : world) :
  (fst (__init__ input_dim code_dim w) = Raise AssertionError
   <-> (code_dim >= input_dim)%Z) /\
  ((code_dim >= input_dim)%Z ->
   __init__ input_dim code_dim w = (Raise AssertionError, w)).
Proof.
  assert (F : (code_dim >= input_dim)%Z ->
              __init__ input_dim code_dim w = (Raise AssertionError, w)).
  { intros H. unfold __init__, bind at 1, liftR, assertR.
    destruct (Z.ltb_spec code_dim input_dim); [lia | reflexivity]. }
  split; [split|exact F].
  - intros E. destruct (Z_lt_ge_dec code_dim input_dim) as [L|G]; [|exact G].
    now apply init_past_assertion with (w := w) in L.
  - intros G. now rewrite (F G).
Qed.

Lemma init_assertion_witness :
  __init__ 36 784 initial_world = (Raise AssertionError, initial_world).
Proof. apply (init_assertion 36 784 initial_world). lia. Defined.

Ltac build_variable :=
  match goal with
  | |- context [normal_variable [?a; ?b] ?w] =>
      let t := fresh "t" in
      let Ht := fresh "Ht" in
      destruct (normal_variable_ok [a; b] _ w (as_shape_pair a b
                  ltac:(lia) ltac:(lia))) as (t & Ht & ->)
  | |- context [zeros_variable [?a; ?b] ?w] =>
      let t := fresh "t" in
      let Ht := fresh "Ht" in
      destruct (zeros_variable_ok [a; b] _ w (as_shape_pair a b
                  ltac:(lia) ltac:(lia))) as (t & Ht & ->)
  end.

Lemma init_builds (input_dim code_dim : Z) (w : world) :
  (0 <= code_dim)%Z -> (code_dim < input_dim)%Z ->
  built_with input_dim code_dim w
    (hidden_1_dim input_dim code_dim) (hidden_2_dim input_dim code_dim).
Proof.
  intros Hc Hi.
  destruct (hidden_dims_nonneg input_dim code_dim) as [H1 H2]; [lia|].
  unfold built_with, __init__, bind at 1, liftR, assertR.
  destruct (Z.ltb_spec code_dim input_dim) as [_|]; [|lia].
  cbv zeta. unfold bind, ret.
  remember (hidden_1_dim input_dim code_dim) as h1 eqn:Eh1. clear Eh1.
  remember (hidden_2_dim input_dim code_dim) as h2 eqn:Eh2. clear Eh2.
  do 12 build_variable.
  eexists _, _. split; [reflexivity|].
  split; [reflexivity|]. split; [reflexivity|].
  unfold param_shapes, layer_shapes. cbn [map snd _params].
  rewrite Ht, Ht0, Ht1, Ht2, Ht3, Ht4, Ht5, Ht6, Ht7, Ht8, Ht9, Ht10.
  rewrite Z2Nat.inj_mul by lia. reflexivity.
Qed.

(** The model a successful construction returns is valid. *)
Lemma init_valid (input_dim code_dim : Z) (w w' : world)
    (self : MLPVariationalAutoEncoder) :
  (0 <= code_dim)%Z -> (code_dim < input_dim)%Z ->
  __init__ input_dim code_dim w = (Ok self, w') ->
  valid_model (Z.to_nat input_dim) (Z.to_nat code_dim) self.
Proof.
  intros Hc Hi E.
  destruct (init_builds input_dim code_dim w Hc Hi)
    as (self0 & w0 & E0 & _ & Hn & Hs).
  rewrite E in E0. injection E0 as <- <-. split; [exact Hn|]. eauto.
Qed.




(** ** The encoder and the decoder *)

Lemma valid_model_params (input_dim code_dim : nat)
    (self : MLPVariationalAutoEncoder) :
  valid_model input_dim code_dim self ->
  exists h1 h2 eW0 eb0 eW1 eb1 eW2 eb2 dW0 db0 dW1 db1 dW2 db2,
    _params self
    = [("enc_W0", eW0); ("enc_b0", eb0); ("enc_W1", eW1); ("enc_b1", eb1);
       ("enc_W2", eW2); ("enc_b2", eb2); ("dec_W0", dW0); ("dec_b0", db0);
       ("dec_W1", dW1); ("dec_b1", db1); ("dec_W2", dW2); ("dec_b2", db2)]%string
    /\ (shape eW0 = [h1; input_dim] /\ shape eb0 = [h1; 1] /\
        shape eW1 = [h2; h1] /\ shape eb1 = [h2; 1] /\
        shape eW2 = [code_dim * 2; h2] /\ shape eb2 = [code_dim * 2; 1])
    /\ (shape dW0 = [h2; code_dim] /\ shape db0 = [h2; 1] /\
        shape dW1 = [h1; h2] /\ shape db1 = [h1; 1] /\
        shape dW2 = [input_dim; h1] /\ shape db2 = [input_dim; 1]).
Proof.
  destruct self as [ps]. unfold valid_model, param_shapes, param_names.
  cbn [_params]. intros [Hn (h1 & h2 & Hs)].
  do 12 (destruct ps as [|[? ?] ps]; [discriminate|]).
  destruct ps; [|discriminate].
  cbn in Hn, Hs. injection Hn as -> -> -> -> -> -> -> -> -> -> -> ->.
  injection Hs as ? ? ? ? ? ? ? ? ? ? ? ?.
  exists h1, h2. do 12 eexists. split; [reflexivity|]. tauto.
Qed.

Lemma encoded_distribution_shape (self : MLPVariationalAutoEncoder)
    (input_dim code_dim batch : nat) (inputs : tensor R) :
  valid_model input_dim code_dim self ->
  shape inputs = [batch; input_dim] ->
  exists encoded, encoded_distribution self inputs = Ok encoded /\
    shape encoded = [batch; code_dim * 2].
Proof.
  intros V Hx.
  destruct (valid_model_params _ _ _ V)
    as (h1 & h2 & eW0 & eb0 & eW1 & eb1 & eW2 & eb2 & dW0 & db0 & dW1 & db1
        & dW2 & db2 & Hp & (E0 & E1 & E2 & E3 & E4 & E5) & _).
  unfold encoded_distribution. rewrite Hp. cbn [lookup String.eqb Ascii.eqb Bool.eqb bindR].
  destruct (dense_shape leaky_relu eW0 inputs eb0 true h1 input_dim batch)
    as (l1 & -> & S1 & _); auto.
  cbn [bindR].
  destruct (dense_shape leaky_relu eW1 l1 eb1 false h2 h1 batch)
    as (l2 & -> & S2 & _); auto.
  cbn [bindR].
  destruct (dense_shape (fun x => x) eW2 l2 eb2 false (code_dim * 2) h2 batch)
    as (l3 & -> & S3 & _); auto.
  cbn [bindR]. eexists. split; [reflexivity|].
  cbn [transpose shape]. rewrite S3. reflexivity.
Qed.

(** [encode] splits the output of the last linear layer in two halves. *)
Lemma encode_split (self : MLPVariationalAutoEncoder)
    (input_dim code_dim batch : nat) (inputs : tensor R) :
  valid_model input_dim code_dim self ->
  shape inputs = [batch; input_dim] ->
  exists encoded mean stddev,
    encoded_distribution self inputs = Ok encoded /\
    shape encoded = [batch; code_dim * 2] /\
    encode self inputs = Ok (mean, stddev) /\
    shape mean = [batch; code_dim] /\
    shape stddev = [batch; code_dim] /\
    (forall r k, item mean [r; k] = item encoded [r; k]) /\
    (forall r k, item stddev [r; k] = Rabs (item encoded [r; code_dim + k])) /\
    (forall idx, (0 <= item stddev idx)%R).
Proof.
  intros V Hx.
  destruct (encoded_distribution_shape self input_dim code_dim batch inputs V Hx)
    as (encoded & He & Hs).
  unfold encode. rewrite He. cbn [bindR].
  unfold shape_at. rewrite Hs. cbn [nth_error bindR].
  rewrite int_div_quot by lia.
  replace (Z.quot (Z.of_nat (code_dim * 2)) 2) with (Z.of_nat code_dim)
    by (rewrite Nat2Z.inj_mul; symmetry; apply Z.quot_mul; lia).
  cbn [bindR]. rewrite Nat2Z.id.
  unfold cols_to, cols_from. rewrite Hs. cbn [bindR].
  replace (Nat.min code_dim (code_dim * 2)) with code_dim by lia.
  replace (code_dim * 2 - code_dim) with code_dim by lia.
  exists encoded. eexists _, _.
  split; [reflexivity|]. split; [exact Hs|].
  do 3 (split; [reflexivity|]).
  split; [intros r k; reflexivity|].
  split; [intros r k; reflexivity|].
  intros idx. cbn. apply Rabs_pos.
Qed.


Lemma sigmoid_range (x : R) : (0 < sigmoid x < 1)%R.
Proof.
  unfold sigmoid. pose proof (exp_pos (- x)) as E.
  split.
  - apply Rdiv_lt_0_compat; lra.
  - apply Rmult_lt_reg_r with (1 + exp (- x))%R; [lra|].
    unfold Rdiv. rewrite Rmult_assoc, Rinv_l by lra. lra.
Qed.

(** [decode] ends in a sigmoid. *)
Lemma decode_sigmoid (self : MLPVariationalAutoEncoder)
    (input_dim code_dim batch : nat) (sampled_encoding : tensor R) :
  valid_model input_dim code_dim self ->
  shape sampled_encoding = [batch; code_dim] ->
  exists decoded,
    decode self sampled_encoding = Ok decoded /\
    shape decoded = [batch; input_dim] /\
    (forall idx, (0 <= item decoded idx <= 1)%R).
Proof.
  intros V Hx.
  destruct (valid_model_params _ _ _ V)
    as (h1 & h2 & eW0 & eb0 & eW1 & eb1 & eW2 & eb2 & dW0 & db0 & dW1 & db1
        & dW2 & db2 & Hp & _ & (E0 & E1 & E2 & E3 & E4 & E5)).
  unfold decode. rewrite Hp. cbn [lookup String.eqb Ascii.eqb Bool.eqb bindR].
  destruct (dense_shape leaky_relu dW0 sampled_encoding db0 true h2 code_dim batch)
    as (l1 & -> & S1 & _); auto.
  cbn [bindR].
  destruct (dense_shape leaky_relu dW1 l1 db1 false h1 h2 batch)
    as (l2 & -> & S2 & _); auto.
  cbn [bindR].
  destruct (dense_shape sigmoid dW2 l2 db2 false input_dim h1 batch)
    as (l3 & -> & S3 & A3); auto.
  cbn [bindR]. eexists. split; [reflexivity|]. split.
  - cbn [transpose shape]. rewrite S3. reflexivity.
  - intros idx. cbn [transpose item]. destruct (A3 (rev idx)) as [z ->].
    pose proof (sigmoid_range z). lra.
Qed.


Lemma zero_model_valid (input_dim h1 h2 code_dim : nat) :
  valid_model input_dim code_dim (zero_model input_dim h1 h2 code_dim).
Proof. split; [reflexivity|]. exists h1, h2. reflexivity. Qed.



(** ** The sampler *)

Lemma as_shape_nat (r c : nat) : as_shape [Z.of_nat r; Z.of_nat c] = Ok [r; c].
Proof. rewrite as_shape_pair by lia. now rewrite !Nat2Z.id. Qed.

Lemma flat_index_matrix (r c i j : nat) : flat_index [r; c] [i; j] = i * c + j.
Proof. unfold flat_index. cbn. lia. Qed.

Lemma in_bounds_matrix (r c i j : nat) : i < r -> j < c -> in_bounds [i; j] [r; c].
Proof. intros Hi Hj. repeat constructor; assumption. Qed.

Lemma sample_encoding_ok (mean stddev : tensor R) (g : rng) (r c : nat) :
  shape mean = [r; c] -> shape stddev = [r; c] ->
  exists t,
    sample_encoding mean stddev g = (Ok t, fun k => g (numel [r; c] + k)) /\
    shape t = [r; c] /\
    forall idx, in_bounds idx [r; c] ->
      item t idx
      = (g (flat_index [r; c] idx) * item stddev idx + item mean idx)%R.
Proof.
  intros Hm Hs. unfold sample_encoding, bind, liftR, assertR, shape_at.
  rewrite Hm, Hs.
  destruct (list_eq_dec Nat.eq_dec [r; c] [r; c]) as [_|N]; [|now destruct N].
  cbn [nth_error]. unfold random_normal, bind, liftR.
  rewrite as_shape_nat. unfold random_standard_normal, tmul, tadd.
  set (rnd := Tensor [r; c] (fun idx => g (flat_index [r; c] idx))).
  destruct (tmap2_same_shape Rmult rnd stddev) as (mul & -> & Sm & Im);
    [now rewrite Hs|].
  destruct (tmap2_same_shape Rplus mul mean) as (t & -> & St & It);
    [now rewrite Sm, Hm|].
  exists t. split; [reflexivity|]. split; [now rewrite St, Sm|].
  intros idx Hb. rewrite It by (now rewrite Sm). rewrite Im by assumption.
  reflexivity.
Qed.



Lemma reparameterized_sample_ok (mean stddev : tensor R) (g : rng) (r c : nat) :
  shape mean = [r; c] -> shape stddev = [r; c] ->
  exists t,
    reparameterized_sample mean stddev g
    = (Ok t, fun k => g (numel [r; c] + k)) /\
    shape t = [r; c] /\
    forall idx, in_bounds idx [r; c] ->
      item t idx
      = (item mean idx + item stddev idx * g (flat_index [r; c] idx))%R.
Proof.
  intros Hm Hs. unfold reparameterized_sample, bind, liftR.
  rewrite Hm. unfold random_standard_normal, tmul, tadd.
  set (rnd := Tensor [r; c] (fun idx => g (flat_index [r; c] idx))).
  destruct (tmap2_same_shape Rmult stddev rnd) as (mul & -> & Sm & Im);
    [now rewrite Hs|].
  cbn [bindR].
  destruct (tmap2_same_shape Rplus mean mul) as (t & -> & St & It);
    [now rewrite Sm, Hs, Hm|].
  exists t. split; [reflexivity|]. split; [now rewrite St, Hm|].
  intros idx Hb. rewrite It by (now rewrite Hm). rewrite Im by (now rewrite Hs).
  reflexivity.
Qed.

Lemma derivable_pt_lim_affine (a b x : R) :
  derivable_pt_lim (fun y => a * y + b)%R x a.
Proof.
  intros eps Heps. exists (mkposreal 1 Rlt_0_1). intros h Hh _.
  replace ((a * (x + h) + b - (a * x + b)) / h - a)%R with 0%R
    by (field; assumption).
  now rewrite Rabs_R0.
Qed.

Lemma derivable_pt_lim_pointwise (f f' : R -> R) (x l : R) :
  (forall y, f y = f' y) -> derivable_pt_lim f' x l -> derivable_pt_lim f x l.
Proof.
  intros E D eps Heps. destruct (D eps Heps) as [delta Hd].
  exists delta. intros h Hh Hlt. rewrite !E. now apply Hd.
Qed.

Lemma with_entry_same (t : tensor R) (idx : list nat) (x : R) :
  item (with_entry t idx x) idx = x.
Proof.
  cbn. destruct (list_eq_dec Nat.eq_dec idx idx) as [_|N]; [reflexivity|].
  now destruct N.
Qed.

Lemma sample_value_matrix (mean stddev : tensor R) (g : rng) (r c i j : nat) :
  shape mean = [r; c] -> shape stddev = [r; c] -> i < r -> j < c ->
  sample_value mean stddev g [i; j]
  = (g (i * c + j)%nat * item stddev [i; j] + item mean [i; j])%R.
Proof.
  intros Hm Hs Hi Hj. unfold sample_value.
  destruct (sample_encoding_ok mean stddev g r c Hm Hs) as (t & -> & _ & It).
  cbn [fst]. rewrite It by (now apply in_bounds_matrix).
  now rewrite flat_index_matrix.
Qed.



(** ** The loss *)

Lemma mean_squared_error_shape (y_true y_pred : tensor R) (n d : nat) :
  shape y_true = [n; d] -> shape y_pred = [n; d] ->
  exists errors, mean_squared_error y_true y_pred = Ok errors /\
    shape errors = [n].
Proof.
  intros Ht Hp. unfold mean_squared_error, tsub.
  destruct (tmap2_same_shape Rminus y_pred y_true) as (diff & -> & Sd & _);
    [now rewrite Ht, Hp|].
  cbn [bindR]. unfold reduce_mean_last. cbn [tmap shape]. rewrite Sd, Hp.
  cbn [rev app]. eexists. split; reflexivity.
Qed.

(** Whatever the divergence term is, the loss has its shape: the mean
    squared error is reduced to a scalar and broadcast against it. *)
Lemma loss_formula (kl : Normal -> Normal -> result (tensor R))
    (self : MLPVariationalAutoEncoder) (input_dim code_dim batch : nat)
    (inputs mean stddev divergence : tensor R) (g : rng) :
  valid_model input_dim code_dim self ->
  shape inputs = [batch; input_dim] ->
  encode self inputs = Ok (mean, stddev) ->
  kl (NormalDistribution (scalar 0%R) (scalar 1%R))
     (NormalDistribution mean stddev) = Ok divergence ->
  exists encoded decoded errors t g',
    sample_encoding mean stddev g = (Ok encoded, g') /\
    decode self encoded = Ok decoded /\
    mean_squared_error inputs decoded = Ok errors /\
    loss kl self inputs g = (Ok t, g') /\
    shape t = shape divergence /\
    forall idx, in_bounds idx (shape divergence) ->
      item t idx
      = ((3 * item (reduce_mean errors) [] + item divergence idx) / 4)%R.
Proof.
  intros V Hx He Hk.
  destruct (encode_split self input_dim code_dim batch inputs V Hx)
    as (lin & mean' & stddev' & _ & _ & He' & Sm & Ss & _).
  rewrite He in He'. injection He' as <- <-.
  destruct (sample_encoding_ok mean stddev g batch code_dim Sm Ss)
    as (encoded & Es & Se & _).
  destruct (decode_sigmoid self input_dim code_dim batch encoded V Se)
    as (decoded & Ed & Sd & _).
  destruct (mean_squared_error_shape inputs decoded batch input_dim Hx Sd)
    as (errors & Ee & _).
  exists encoded, decoded, errors.
  unfold loss, bind, liftR. rewrite He. cbn [fst snd]. rewrite Hk, Es, Ed, Ee.
  unfold tmul. rewrite tmap2_scalar_l. cbn [bindR].
  unfold tadd, tmap2 at 1. cbn [shape reduce_mean scalar].
  rewrite broadcast_shapes_nil_l. cbn [bindR]. unfold tdiv.
  rewrite tmap2_scalar_r. cbn [shape].
  eexists _, _. do 4 (split; [reflexivity|]). split; [reflexivity|].
  intros idx Hb. cbn [item].
  rewrite !(bidx_in_bounds (shape divergence) idx Hb). reflexivity.
Qed.

Lemma normal_kl_shape (a b : R) (mean stddev : tensor R) :
  shape mean = shape stddev ->
  exists divergence,
    normal_kl (NormalDistribution (scalar a) (scalar b))
              (NormalDistribution mean stddev) = Ok divergence /\
    shape divergence = shape mean /\
    forall idx, in_bounds idx (shape mean) ->
      item divergence idx
      = normal_kl_entry (a, b) (item mean idx, item stddev idx).
Proof.
  intros E. unfold normal_kl. cbn [loc scale].
  rewrite tmap2_scalar_l. cbn [bindR].
  destruct (tmap2_same_shape pair mean stddev E) as (qq & -> & Sq & Iq).
  cbn [bindR]. unfold tmap2. cbn [shape]. rewrite broadcast_shapes_nil_l.
  eexists. split; [reflexivity|]. split; [now rewrite Sq|].
  intros idx Hb. cbn [item]. rewrite Sq.
  rewrite (bidx_in_bounds (shape mean) idx Hb). now rewrite Iq.
Qed.

Ltac simplify_reals :=
  repeat (rewrite Rmult_0_l || rewrite Rplus_0_l || rewrite Rplus_0_r
          || rewrite Ropp_0 || rewrite exp_0 || rewrite Rminus_0_r
          || rewrite Rabs_R1).

Ltac evaluate :=
  cbv -[Rplus Rmult Rminus Rdiv Rmax Rabs exp ln Rinv INR IZR Ropp].

(** C1 at a batch of two examples.  With the divergence taken per
    coordinate, the loss of [unit_code_model] on two all-zero inputs is not a
    single scalar: it is the tensor of shape [(2, 1)] whose two entries are
    [(3 * 1/4 + 1/2) / 4 = 5/16], one for each coordinate of the code. *)
Theorem loss_not_scalar :
  exists t g',
    loss normal_kl unit_code_model (zeros [2; 2]) zero_rng = (Ok t, g') /\
    shape t = [2; 1] /\
    ~ is_scalar t /\
    item t [0; 0] = (5 / 16)%R /\
    item t [1; 0] = (5 / 16)%R.
Proof.
  eexists _, _. split; [evaluate; reflexivity|].
  split; [reflexivity|]. split; [discriminate|].
  split; evaluate; simplify_reals;
    replace (1 / 1)%R with 1%R by lra; rewrite ln_1; simpl INR; lra.
Qed.

(** ** Training *)

Lemma lookup_in {A : Type} (key : string) (d : list (string * A)) :
  In key (map fst d) -> exists v, lookup key d = Ok v.
Proof.
  induction d as [|[k v] d IH]; cbn; [tauto|].
  intros [E|H].
  - subst k. rewrite String.eqb_refl. eauto.
  - destruct (String.eqb key k); eauto.
Qed.

Lemma mapR_ok {A B : Type} (f : A -> result B) (l : list A) :
  (forall x, In x l -> exists y, f x = Ok y) -> exists ys, mapR f l = Ok ys.
Proof.
  induction l as [|x l IH]; intros H; cbn; [eauto|].
  destruct (H x) as [y ->]; [now left|]. cbn.
  destruct IH as [ys ->]; [intros; apply H; now right|]. cbn. eauto.
Qed.

(** Every name of the gradient dictionary is found in it and among the
    parameters. *)
Lemma grads_and_vars_ok (params : list (string * tensor R))
    (f : string -> tensor R) :
  let grads := map (fun kv => (fst kv, f (fst kv))) params in
  exists pairs,
    mapR (fun key => (g <-? lookup key grads ;;
                      v <-? lookup key params ;;
                      Ok (g, v))%result)
         (map fst grads) = Ok pairs.
Proof.
  intros grads. assert (E : map fst grads = map fst params).
  { unfold grads. rewrite map_map. reflexivity. }
  apply mapR_ok. intros key Hk.
  destruct (lookup_in key grads Hk) as [g ->]. rewrite E in Hk.
  destruct (lookup_in key params Hk) as [v ->]. cbn. eauto.
Qed.

Lemma Rgtb_true (x y : R) : (x > y)%R -> Rgtb x y = true.
Proof. intros H. unfold Rgtb. destruct (Rgt_dec x y); [reflexivity|contradiction]. Qed.

(** On scalar losses the stopping test is the comparison of the two
    numbers, and it never raises. *)
Lemma early_stop_scalars (epoch_num : Z) (train_loss val_loss : tensor R) :
  is_scalar train_loss -> is_scalar val_loss ->
  early_stop epoch_num train_loss val_loss
  = Ok ((15 <? epoch_num)%Z &&
        Rgtb (item val_loss [] - item train_loss [])
             (item train_loss [] / 32)).
Proof.
  unfold is_scalar, early_stop. intros Ht Hv.
  destruct (15 <? epoch_num)%Z; [|reflexivity].
  unfold tsub, tdiv, tgreater, tmap2. rewrite Ht, Hv. cbn. reflexivity.
Qed.

Lemma early_stop_diverged (epoch_num : Z) (train_loss val_loss : tensor R) :
  (15 < epoch_num)%Z -> diverged train_loss val_loss ->
  early_stop epoch_num train_loss val_loss = Ok true.
Proof.
  intros He (Ht & Hv & Hd). rewrite early_stop_scalars by assumption.
  rewrite Rgtb_true by assumption.
  destruct (Z.ltb_spec 15 epoch_num); [reflexivity|lia].
Qed.

(** On losses of one shape with several entries the stopping test raises,
    once the epoch number is above 15: the comparison is a tensor of several
    truth values, which [if] rejects. *)
Lemma early_stop_on_tensors (epoch_num : Z) (train_loss val_loss : tensor R) :
  (15 < epoch_num)%Z ->
  shape train_loss = shape val_loss ->
  2 <= numel (shape train_loss) ->
  early_stop epoch_num train_loss val_loss = Raise ValueError.
Proof.
  intros He Hs Hn. unfold early_stop.
  destruct (Z.ltb_spec 15 epoch_num); [|lia].
  unfold tsub. destruct (tmap2_same_shape Rminus val_loss train_loss)
    as (gap & -> & Sg & _); [now symmetry|].
  cbn [bindR]. unfold tdiv. rewrite tmap2_scalar_r. cbn [bindR].
  unfold tgreater.
  destruct (tmap2_same_shape Rgtb gap
              (Tensor (shape train_loss)
                 (fun idx => (item train_loss (bidx (shape train_loss) idx)
                              / 32)%R)))
    as (exceeds & -> & Se & _); [now rewrite Sg, Hs|].
  cbn [bindR]. unfold truth. rewrite Se, Sg, <- Hs.
  destruct (numel (shape train_loss)) as [|[|m]]; [lia|lia|reflexivity].
Qed.

(** A printed epoch report among training steps is found where it stands. *)
Lemma split_at_report (steps rest pre post : list event) (x y : event) :
  Forall is_step steps -> ~ is_step x -> ~ is_step y ->
  steps ++ x :: rest = pre ++ y :: post ->
  (pre = steps /\ y = x /\ post = rest) \/
  (exists pre', pre = steps ++ x :: pre' /\ rest = pre' ++ y :: post).
Proof.
  intros Hs Hx Hy. revert pre.
  induction Hs as [|s steps Hs0 Hs IH]; intros pre E.
  - destruct pre as [|p pre]; cbn in E.
    + injection E as <- <-. now left.
    + injection E as <- ->. right. now exists pre.
  - destruct pre as [|p pre]; cbn in E.
    + injection E as <- _. contradiction.
    + injection E as <- E. destruct (IH pre E) as [(-> & -> & ->)|(pre' & -> & ->)].
      * now left.
      * right. now exists pre'.
Qed.

Lemma for_each_cons {S A X : Type} (x : X) (xs : list X)
    (body : X -> A -> ST S A) (a : A) (s : S) :
  for_each (x :: xs) body a s
  = match body x a s with
    | (Ok a', s') => for_each xs body a' s'
    | (Raise e, s') => (Raise e, s')
    end.
Proof. reflexivity. Qed.

Lemma for_break_cons {S A X : Type} (x : X) (xs : list X)
    (body : X -> A -> ST S (A * bool)) (a : A) (s : S) :
  for_break (x :: xs) body a s
  = match body x a s with
    | (Ok (a', true), s') => (Ok a', s')
    | (Ok (a', false), s') => for_break xs body a' s'
    | (Raise e, s') => (Raise e, s')
    end.
Proof.
  cbn [for_break]. unfold bind. destruct (body x a s) as [[[a' [|]]|e] s'];
    reflexivity.
Qed.

Lemma bind_liftR_ok {S A B : Type} (v : A) (k : A -> ST S B) (s : S) :
  bind (liftR (Ok v)) k s = k v s.
Proof. reflexivity. Qed.

Lemma nth_error_pairs {A : Type} (f g : nat -> A) (m : nat) :
  forall base k, k < m ->
    nth_error (flat_map (fun j => [f j; g j]) (seq base m)) (2 * k)
    = Some (f (base + k)) /\
    nth_error (flat_map (fun j => [f j; g j]) (seq base m)) (2 * k + 1)
    = Some (g (base + k)).
Proof.
  induction m as [|m IH]; intros base k Hk; [lia|].
  cbn [seq flat_map app]. destruct k as [|k].
  - cbn. rewrite Nat.add_0_r. split; reflexivity.
  - replace (2 * S k) with (S (S (2 * k))) by lia.
    replace (S (S (2 * k)) + 1) with (S (S (2 * k + 1))) by lia.
    cbn [nth_error]. replace (base + S k) with (S base + k) by lia.
    apply IH. lia.
Qed.

Lemma length_pairs {A : Type} (f g : nat -> A) (m base : nat) :
  length (flat_map (fun j => [f j; g j]) (seq base m)) = 2 * m.
Proof.
  revert base. induction m as [|m IH]; intros base; [reflexivity|].
  cbn [seq flat_map app length]. rewrite IH. lia.
Qed.

Section TrainerProperties.

Variable loss_method : MLPVariationalAutoEncoder -> tensor R -> Rand (tensor R).
Variable optimizer : Type.
Variable apply_gradients :
  optimizer -> list (tensor R * tensor R) -> optimizer * list (tensor R).
Variable gradient :
  MLPVariationalAutoEncoder -> tensor R -> rng -> string -> tensor R.
Variables (inputs val_inputs : tensor R) (num_epochs batch_size : Z).

Local Abbreviation step := (_training_step loss_method optimizer apply_gradients gradient).
Local Abbreviation batches :=
  (train_batches loss_method optimizer apply_gradients gradient
                 inputs batch_size).
Local Abbreviation epoch :=
  (train_epoch loss_method optimizer apply_gradients gradient
               inputs val_inputs num_epochs batch_size).
Local Abbreviation run :=
  (train loss_method optimizer apply_gradients gradient
         inputs val_inputs num_epochs batch_size).

(** A training step records itself, evaluates the loss and, unless the
    loss raised, calls the optimizer exactly once. *)
Lemma training_step_cases (st : MLPVariationalAutoEncoder * optimizer)
    (x : tensor R) (w : world) :
  (exists st' l g,
     loss_method (fst st) x (noise w) = (Ok l, g) /\
     step st x w
     = (Ok st', World g (trace w ++ [TrainingStep x; ApplyGradients]))) \/
  (exists e g,
     loss_method (fst st) x (noise w) = (Raise e, g) /\
     step st x w = (Raise e, World g (trace w ++ [TrainingStep x]))).
Proof.
  unfold _training_step, bind, emit, get_noise, liftN, liftR, ret.
  cbn [noise trace].
  destruct (loss_method (fst st) x (noise w)) as [[l|e] g].
  - left.
    destruct (grads_and_vars_ok (_params (fst st))
                (gradient (fst st) x (noise w))) as [pairs ->].
    cbn [noise trace]. rewrite <- app_assoc. cbn [app].
    eexists _, l, g. split; reflexivity.
  - right. exists e, g. split; reflexivity.
Qed.

Lemma rows_slice_batch (n : nat) (rest : list nat) (k : nat) :
  shape inputs = n :: rest ->
  rows_slice (Z.of_nat k * batch_size) (Z.of_nat k * batch_size + batch_size)
             inputs
  = Ok (batch_of inputs batch_size k).
Proof. intros H. unfold batch_of, rows_slice. rewrite H. reflexivity. Qed.

(** The inner loop, over any list of batch numbers: its trace is made of
    steps only; when it completes, every batch number contributed one
    training step and one optimizer call, in order; and it completes when
    the loss never raises. *)
Lemma batch_loop_trace (n : nat) (rest : list nat) :
  shape inputs = n :: rest ->
  forall (ks : list nat) (st : MLPVariationalAutoEncoder * optimizer) (w : world),
  let r :=
    for_each (map Z.of_nat ks)
      (fun batch_num st =>
         inputs_batch <- liftR (rows_slice (batch_num * batch_size)
                                  (batch_num * batch_size + batch_size)
                                  inputs) ;;
         step st inputs_batch)%st
      st w in
  exists evs,
    trace (snd r) = trace w ++ evs /\
    Forall is_step evs /\
    (forall st', fst r = Ok st' ->
       evs = flat_map (fun k => [TrainingStep (batch_of inputs batch_size k);
                                 ApplyGradients]) ks) /\
    ((forall self x g, exists l g', loss_method self x g = (Ok l, g')) ->
     exists st', fst r = Ok st').
Proof.
  intros Hs ks. induction ks as [|k ks IH]; intros st w r.
  - exists []. subst r. cbn. rewrite app_nil_r.
    repeat split; auto. eauto.
  - subst r. cbn [map]. rewrite for_each_cons.
    rewrite (rows_slice_batch n rest k Hs), bind_liftR_ok.
    destruct (training_step_cases st (batch_of inputs batch_size k) w)
      as [(st1 & l & g & _ & ->)|(e & g & El & ->)].
    + destruct (IH st1 (World g (trace w ++ [TrainingStep (batch_of inputs batch_size k);
                                             ApplyGradients])))
        as (evs & Ht & Hf & Hok & Htot).
      cbn zeta in Ht, Hok, Htot. cbn [trace] in Ht.
      exists ([TrainingStep (batch_of inputs batch_size k); ApplyGradients] ++ evs).
      split; [now rewrite Ht, <- app_assoc|].
      split; [repeat constructor; assumption|].
      split; [|exact Htot].
      intros st' E. cbn [flat_map]. now rewrite <- (Hok st' E).
    + exists [TrainingStep (batch_of inputs batch_size k)].
      split; [reflexivity|]. split; [repeat constructor|].
      split; [intros st' E; discriminate E|].
      intros Htot. destruct (Htot (fst st) (batch_of inputs batch_size k) (noise w))
        as (l & g' & E). congruence.
Qed.

Lemma batch_count (n : nat) :
  (0 < batch_size)%Z ->
  Z.to_nat (Z.quot (Z.of_nat n) batch_size - 0) = n / Z.to_nat batch_size.
Proof.
  intros Hb. rewrite Z.sub_0_r, Z.quot_div_nonneg by lia.
  rewrite Z2Nat.inj_div by lia. now rewrite Nat2Z.id.
Qed.

(** The inner loop of an epoch: only steps are traced; for a positive batch
    size, a loop that completes made the steps of [epoch_steps], and the
    loop completes when the loss never raises. *)
Lemma train_batches_trace (st : MLPVariationalAutoEncoder * optimizer)
    (w : world) :
  exists evs,
    trace (snd (batches st w)) = trace w ++ evs /\
    Forall is_step evs /\
    forall n rest, (0 < batch_size)%Z -> shape inputs = n :: rest ->
      (forall st', fst (batches st w) = Ok st' ->
         evs = epoch_steps inputs batch_size n) /\
      ((forall self x g, exists l g', loss_method self x g = (Ok l, g')) ->
       exists st', fst (batches st w) = Ok st').
Proof.
  destruct (shape inputs) as [|n rest] eqn:Hs.
  { assert (E : batches st w = (Raise IndexError, w)).
    { unfold train_batches, shape_at. rewrite Hs. reflexivity. }
    rewrite E. exists []. cbn. rewrite app_nil_r.
    repeat split; auto; discriminate. }
  destruct (Z.eqb_spec batch_size 0) as [Hz|Hz].
  { assert (E : batches st w = (Raise ZeroDivisionError, w)).
    { unfold train_batches, shape_at. rewrite Hs. cbn [nth_error].
      rewrite bind_liftR_ok. unfold int_div. rewrite Hz. reflexivity. }
    rewrite E. exists []. cbn. rewrite app_nil_r.
    split; [reflexivity|]. split; [constructor|]. intros; lia. }
  assert (E : batches st w
              = for_each
                  (map Z.of_nat
                     (seq 0 (Z.to_nat (Z.quot (Z.of_nat n) batch_size - 0))))
                  (fun batch_num st =>
                     inputs_batch <- liftR (rows_slice (batch_num * batch_size)
                                              (batch_num * batch_size + batch_size)
                                              inputs) ;;
                     step st inputs_batch)%st
                  st w).
  { unfold train_batches, shape_at. rewrite Hs. cbn [nth_error].
    rewrite bind_liftR_ok, int_div_quot by assumption.
    rewrite bind_liftR_ok. reflexivity. }
  rewrite E.
  destruct (batch_loop_trace n rest Hs
              (seq 0 (Z.to_nat (Z.quot (Z.of_nat n) batch_size - 0))) st w)
    as (evs & Ht & Hf & Hok & Htot).
  exists evs. split; [exact Ht|]. split; [exact Hf|].
  intros n' rest' Hb [= <- <-]. split; [|exact Htot].
  intros st' E'. rewrite (Hok st' E'). unfold epoch_steps.
  now rewrite batch_count.
Qed.

(** What one epoch does: its steps; then, unless a step or a loss raised,
    the report of its two losses; then, unless the stopping test raised,
    the stop message when the test holds. *)
Lemma train_epoch_cases (e : Z) (st : MLPVariationalAutoEncoder * optimizer)
    (w : world) :
  exists steps, Forall is_step steps /\
    ((exists err w',
        epoch e st w = (Raise err, w') /\ trace w' = trace w ++ steps) \/
     (exists err w' tl vl,
        epoch e st w = (Raise err, w') /\
        trace w' = trace w ++ steps ++ [PrintEpoch e num_epochs tl vl] /\
        early_stop e tl vl = Raise err) \/
     (exists st' w' tl vl stop,
        epoch e st w = (Ok (st', stop), w') /\
        early_stop e tl vl = Ok stop /\
        trace w' = trace w ++ steps
                   ++ PrintEpoch e num_epochs tl vl
                      :: (if stop then [PrintStopped] else []) /\
        forall n rest, (0 < batch_size)%Z -> shape inputs = n :: rest ->
          steps = epoch_steps inputs batch_size n)).
Proof.
  destruct (train_batches_trace st w) as (steps & Ht & Hf & Hn).
  exists steps. split; [exact Hf|].
  unfold train_epoch, bind, liftN, emit, liftR, ret.
  destruct (batches st w) as [[st1|err] w1] eqn:Eb; cbn [snd fst] in Ht, Hn.
  2: { left. exists err, w1. split; [reflexivity|exact Ht]. }
  destruct (loss_method (fst st1) inputs (noise w1)) as [[tl|err] g1].
  2: { left. exists err, (World g1 (trace w1)). split; [reflexivity|exact Ht]. }
  cbn [noise trace].
  destruct (loss_method (fst st1) val_inputs g1) as [[vl|err] g2].
  2: { left. exists err, (World g2 (trace w1)). split; [reflexivity|exact Ht]. }
  cbn [noise trace].
  destruct (early_stop e tl vl) as [stop|err] eqn:Es.
  2: { right. left.
       exists err, (World g2 (trace w1 ++ [PrintEpoch e num_epochs tl vl])), tl, vl.
       split; [reflexivity|]. split; [|exact Es].
       cbn [trace]. now rewrite Ht, <- app_assoc. }
  right. right. destruct stop.
  - exists st1, (World g2 ((trace w1 ++ [PrintEpoch e num_epochs tl vl])
                           ++ [PrintStopped])), tl, vl, true.
    split; [reflexivity|]. split; [exact Es|]. split.
    + cbn [trace]. rewrite Ht, <- !app_assoc. reflexivity.
    + intros n rest Hb Hs. now apply (proj1 (Hn n rest Hb Hs) st1).
  - exists st1, (World g2 (trace w1 ++ [PrintEpoch e num_epochs tl vl])), tl, vl, false.
    split; [reflexivity|]. split; [exact Es|]. split.
    + cbn [trace]. rewrite Ht, <- !app_assoc. reflexivity.
    + intros n rest Hb Hs. now apply (proj1 (Hn n rest Hb Hs) st1).
Qed.

Lemma report_not_step (e n : Z) (tl vl : tensor R) :
  ~ is_step (PrintEpoch e n tl vl).
Proof. intros []. Qed.

Lemma steps_hold_no_report (steps pre post : list event) (e n : Z)
    (tl vl : tensor R) :
  Forall is_step steps -> steps <> pre ++ PrintEpoch e n tl vl :: post.
Proof.
  intros Hf E. rewrite E in Hf. apply Forall_elt in Hf. destruct Hf.
Qed.

(** The outer loop over any list of epoch numbers: a report of diverged
    losses after epoch 15 is followed by the stop message and by nothing
    else, and the loop then returns normally. *)
Lemma epochs_stop (xs : list Z) :
  forall (st : MLPVariationalAutoEncoder * optimizer) (w : world),
  exists new,
    trace (snd (for_break xs epoch st w)) = trace w ++ new /\
    forall pre post e n tl vl,
      new = pre ++ PrintEpoch e n tl vl :: post ->
      (15 < e)%Z -> diverged tl vl ->
      post = [PrintStopped] /\
      exists st', fst (for_break xs epoch st w) = Ok st'.
Proof.
  induction xs as [|x xs IH]; intros st w.
  { exists []. cbn. rewrite app_nil_r. split; [reflexivity|].
    intros pre post e n tl vl E. now destruct pre. }
  rewrite for_break_cons.
  destruct (train_epoch_cases x st w)
    as (steps & Hf & [(err & w' & -> & Ht)
                     |[(err & w' & tl0 & vl0 & -> & Ht & Es)
                      |(st' & w' & tl0 & vl0 & stop & -> & Es & Ht & _)]]).
  - exists steps. split; [exact Ht|].
    intros pre post e n tl vl E. now apply steps_hold_no_report in E.
  - exists (steps ++ [PrintEpoch x num_epochs tl0 vl0]). split; [exact Ht|].
    intros pre post e n tl vl E He Hd. exfalso.
    apply split_at_report in E; auto using report_not_step.
    destruct E as [(_ & [= -> -> -> ->] & _)|(pre' & _ & E)].
    + rewrite (early_stop_diverged _ _ _ He Hd) in Es. discriminate.
    + now destruct pre'.
  - destruct stop.
    + exists (steps ++ [PrintEpoch x num_epochs tl0 vl0; PrintStopped]).
      split; [exact Ht|].
      intros pre post e n tl vl E He Hd.
      apply split_at_report in E; auto using report_not_step.
      destruct E as [(_ & _ & ->)|(pre' & _ & E)].
      * split; [reflexivity|]. now exists st'.
      * exfalso. destruct pre' as [|? [|? ?]]; discriminate.
    + destruct (IH st' w') as (new & Hn & Hsplit).
      exists (steps ++ PrintEpoch x num_epochs tl0 vl0 :: new).
      split; [rewrite Hn, Ht, <- !app_assoc; reflexivity|].
      intros pre post e n tl vl E He Hd.
      apply split_at_report in E; auto using report_not_step.
      destruct E as [(_ & [= -> -> -> ->] & _)|(pre' & _ & E)].
      * rewrite (early_stop_diverged _ _ _ He Hd) in Es. discriminate.
      * now apply (Hsplit pre' post e n tl vl).
Qed.

(** C3: in every run of [train], if the report of an epoch numbered above 15
    shows a validation loss that exceeds the training loss by more than a
    thirty-second of it, then the stop message follows and nothing else is
    done: no step of a later epoch, no later report (if that epoch is 16,
    epoch 17 is never run); and [train] returns normally, without an
    error. *)
Theorem early_stopping (st : MLPVariationalAutoEncoder * optimizer) (w : world)
    (pre post : list event) (e n : Z) (tl vl : tensor R) :
  trace (snd (run st w)) = trace w ++ pre ++ PrintEpoch e n tl vl :: post ->
  (15 < e)%Z ->
  diverged tl vl ->
  post = [PrintStopped] /\ exists st', fst (run st w) = Ok st'.
Proof.
  intros Ht He Hd. unfold train in *.
  destruct (epochs_stop (range 1 (num_epochs + 1)) st w) as (new & Hn & Hsplit).
  rewrite Hn in Ht. apply app_inv_head in Ht.
  now apply (Hsplit pre post e n tl vl).
Qed.

(** Batch [k] is made of the rows [k * b] to [k * b + b - 1]. *)
Lemma batch_rows (n : nat) (rest : list nat) (k : nat) :
  (0 < batch_size)%Z -> shape inputs = n :: rest ->
  k < n / Z.to_nat batch_size ->
  shape (batch_of inputs batch_size k) = Z.to_nat batch_size :: rest /\
  forall i idx,
    item (batch_of inputs batch_size k) (i :: idx)
    = item inputs ((k * Z.to_nat batch_size + i) :: idx).
Proof.
  intros Hb Hs Hk. unfold batch_of, rows_slice. rewrite Hs.
  set (b := Z.to_nat batch_size) in *.
  assert (Hfull : (k + 1) * b <= n).
  { transitivity (n / b * b); [apply Nat.mul_le_mono_r; lia|].
    rewrite Nat.mul_comm. apply Nat.Div0.mul_div_le. }
  assert (E1 : slice_bound (Z.of_nat k * batch_size) n = k * b).
  { unfold slice_bound. destruct (Z.ltb_spec (Z.of_nat k * batch_size) 0); [lia|].
    rewrite Z2Nat.inj_mul, Nat2Z.id by lia. fold b. lia. }
  assert (E2 : slice_bound (Z.of_nat k * batch_size + batch_size) n = (k + 1) * b).
  { unfold slice_bound.
    destruct (Z.ltb_spec (Z.of_nat k * batch_size + batch_size) 0); [lia|].
    rewrite Z2Nat.inj_add, Z2Nat.inj_mul, Nat2Z.id by lia. fold b. lia. }
  rewrite E1, E2. cbn [shape item]. split; [f_equal; lia|reflexivity].
Qed.

(** A run of the outer loop that returns has traced, for each epoch it
    completed, the steps of [epoch_steps] and the report, and last the stop
    message if it stopped early. *)
Lemma epochs_steps (n : nat) (rest : list nat) :
  (0 < batch_size)%Z -> shape inputs = n :: rest ->
  forall (xs : list Z) (st st' : MLPVariationalAutoEncoder * optimizer)
         (w w' : world),
    for_break xs epoch st w = (Ok st', w') ->
    exists reports stopped,
      map fst reports = firstn (length reports) xs /\
      trace w' = trace w
                 ++ epochs_trace inputs batch_size n num_epochs reports
                 ++ (if stopped : bool then [PrintStopped] else []).
Proof.
  intros Hb Hs xs. induction xs as [|x xs IH]; intros st st' w w' E.
  { injection E as _ <-. exists [], false. cbn. now rewrite app_nil_r. }
  rewrite for_break_cons in E.
  destruct (train_epoch_cases x st w)
    as (steps & _ & [(err & w1 & Ee & _)
                    |[(err & w1 & tl & vl & Ee & _)
                     |(st1 & w1 & tl & vl & stop & Ee & _ & Ht & Hsteps)]]);
    rewrite Ee in E; try discriminate.
  rewrite (Hsteps n rest Hb Hs) in Ht. destruct stop.
  - injection E as _ <-. exists [(x, (tl, vl))], true.
    split; [reflexivity|]. rewrite Ht. unfold epochs_trace. cbn [flat_map fst snd].
    rewrite app_nil_r, <- !app_assoc. reflexivity.
  - destruct (IH st1 st' w1 w' E) as (reports & stopped & Hr & Ht').
    exists ((x, (tl, vl)) :: reports), stopped.
    split; [cbn; now rewrite Hr|].
    rewrite Ht', Ht. unfold epochs_trace. cbn [flat_map fst snd].
    rewrite <- !app_assoc. reflexivity.
Qed.

(** When the loss always returns a scalar, an epoch and the whole loop
    return normally. *)
Lemma train_epoch_total (n : nat) (rest : list nat) :
  (0 < batch_size)%Z -> shape inputs = n :: rest ->
  (forall self x g, exists l g',
      loss_method self x g = (Ok l, g') /\ is_scalar l) ->
  forall e st w, exists st' stop w', epoch e st w = (Ok (st', stop), w').
Proof.
  intros Hb Hs Hl e st w.
  destruct (train_batches_trace st w) as (steps & _ & _ & Hn).
  destruct (proj2 (Hn n rest Hb Hs)) as [st1 E1].
  { intros self x g. destruct (Hl self x g) as (l & g' & E & _). eauto. }
  unfold train_epoch, bind, liftN, emit, liftR, ret.
  destruct (batches st w) as [r1 w1]. cbn [fst] in E1. subst r1.
  destruct (Hl (fst st1) inputs (noise w1)) as (tl & g1 & -> & Stl).
  cbn [noise trace].
  destruct (Hl (fst st1) val_inputs g1) as (vl & g2 & -> & Svl).
  cbn [noise trace]. rewrite (early_stop_scalars e tl vl Stl Svl).
  destruct (_ && _); eauto.
Qed.

Lemma epochs_total (n : nat) (rest : list nat) :
  (0 < batch_size)%Z -> shape inputs = n :: rest ->
  (forall self x g, exists l g',
      loss_method self x g = (Ok l, g') /\ is_scalar l) ->
  forall xs st w, exists st' w', for_break xs epoch st w = (Ok st', w').
Proof.
  intros Hb Hs Hl xs. induction xs as [|x xs IH]; intros st w.
  { eexists _, _. reflexivity. }
  rewrite for_break_cons.
  destruct (train_epoch_total n rest Hb Hs Hl x st w) as (st1 & stop & w1 & ->).
  destruct stop; eauto.
Qed.


End TrainerProperties.

Lemma simulated_losses_diverged : diverged (scalar (INR 1)) (scalar (INR 2)).
Proof. repeat split. cbn. lra. Qed.

(** A run on simulated losses, epoch by epoch. *)
Lemma simulated_batches (st : MLPVariationalAutoEncoder * unit) (w : world) :
  exists st',
    train_batches rows_loss unit idle_apply_gradients zero_gradient
                  (zeros [1; 2]) 1 st w
    = (Ok st', World (noise w)
                 (trace w ++ [TrainingStep (batch_of (zeros [1; 2]) 1 0);
                              ApplyGradients])).
Proof.
  unfold train_batches, shape_at. cbn [shape zeros nth_error].
  rewrite bind_liftR_ok, int_div_quot by lia. rewrite bind_liftR_ok.
  change (range 0 (Z.quot (Z.of_nat 1) 1)) with [0%Z].
  rewrite for_each_cons.
  change (rows_slice (0 * 1) (0 * 1 + 1) (zeros [1; 2]))
    with (Ok (batch_of (zeros [1; 2]) 1 0)).
  rewrite bind_liftR_ok.
  destruct (training_step_cases rows_loss unit idle_apply_gradients zero_gradient
              st (batch_of (zeros [1; 2]) 1 0) w)
    as [(st1 & l & g & [= _ <-] & ->)|(e & g & [=] & _)].
  exists st1. reflexivity.
Qed.

Lemma simulated_epoch (e : Z) (st : MLPVariationalAutoEncoder * unit) (w : world) :
  exists st',
    train_epoch rows_loss unit idle_apply_gradients zero_gradient
                (zeros [1; 2]) (zeros [2; 2]) 32 1 e st w
    = (Ok (st', (15 <? e)%Z),
       World (noise w)
         (trace w
          ++ [TrainingStep (batch_of (zeros [1; 2]) 1 0); ApplyGradients;
              PrintEpoch e 32 (scalar (INR 1)) (scalar (INR 2))]
          ++ (if (15 <? e)%Z then [PrintStopped] else []))).
Proof.
  unfold train_epoch, bind.
  destruct (simulated_batches st w) as [st1 ->].
  unfold liftN, rows_loss, ret, emit, liftR.
  cbn [noise trace shape zeros hd fst].
  rewrite early_stop_scalars by reflexivity. cbn [item scalar].
  rewrite Rgtb_true by (cbn; lra). rewrite andb_true_r.
  exists st1. destruct (15 <? e)%Z; cbn [noise trace];
    rewrite <- !app_assoc; reflexivity.
Qed.

Lemma simulated_trace :
  trace (snd (simulated_train (zeros [1; 2]) (zeros [2; 2]) 32 1
                simulated_start initial_world))
  = trace initial_world ++ simulated_prefix
    ++ PrintEpoch 16 32 (scalar (INR 1)) (scalar (INR 2)) :: [PrintStopped].
Proof.
  unfold train.
  change (range 1 (32 + 1)) with (map Z.of_nat (seq 1 32)).
  cbn [seq map].
  do 16 (rewrite for_break_cons;
         match goal with
         | |- context [train_epoch _ _ _ _ _ _ _ _ ?e ?st ?w] =>
             destruct (simulated_epoch e st w) as [? ->]
         end;
         cbn [Z.of_nat Pos.of_succ_nat Pos.succ Z.ltb Z.compare Pos.compare Pos.compare_cont noise trace]).
  cbn [snd trace]. rewrite <- !app_assoc. reflexivity.
Qed.

Lemma early_stopping_witness :
  exists st',
    fst (simulated_train (zeros [1; 2]) (zeros [2; 2]) 32 1
           simulated_start initial_world) = Ok st'.
Proof.
  exact (proj2 (early_stopping rows_loss unit idle_apply_gradients zero_gradient
                  (zeros [1; 2]) (zeros [2; 2]) 32 1
                  simulated_start initial_world
                  simulated_prefix [PrintStopped] 16 32
                  (scalar (INR 1)) (scalar (INR 2))
                  simulated_trace ltac:(lia) simulated_losses_diverged)).
Defined.


(** * Further properties *)

(** ** Examples are processed independently *)

Lemma Rsum_map_seq_ext (f f' : nat -> R) (k : nat) :
  (forall l, l < k -> f l = f' l) ->
  Rsum (map f (seq 0 k)) = Rsum (map f' (seq 0 k)).
Proof.
  intros H. f_equal. apply map_ext_in. intros l Hl.
  apply in_seq in Hl. apply H. lia.
Qed.

(** The entries of a dense layer: the activation of a weighted sum of one
    example's features, plus the bias of the unit. *)
Lemma dense_entry (activation : R -> R) (W x b : tensor R) (transpose_b : bool)
    (h k n : nat) :
  shape W = [h; k] ->
  shape x = (if transpose_b then [n; k] else [k; n]) ->
  shape b = [h; 1] ->
  exists t, dense activation W x b transpose_b = Ok t /\ shape t = [h; n] /\
    forall a j, a < h -> j < n ->
      item t [a; j]
      = activation
          (Rsum (map (fun l => (item W [a; l]
                                * item x (if transpose_b then [j; l] else [l; j]))%R)
                     (seq 0 k))
           + item b [a; 0%nat])%R.
Proof.
  intros HW Hx Hb. unfold dense, matmul. rewrite HW, Hx.
  destruct transpose_b; rewrite Nat.eqb_refl; cbn [bindR];
    unfold tadd, tmap2; cbn [shape]; rewrite Hb, broadcast_shapes_bias;
    cbn [bindR]; (eexists; split; [reflexivity|]; split; [reflexivity|]);
    intros a j Ha Hj; cbn [tmap item];
    rewrite (bidx_in_bounds [h; n] [a; j]) by (now apply in_bounds_matrix);
    unfold bidx; cbn [length Nat.sub skipn clamp nth Nat.eqb];
    (destruct (Nat.eqb_spec h 1) as [->|_];
     [replace a with 0 by lia|]); reflexivity.
Qed.

(** The encoder's linear output for an example depends on that example
    only: two batches that hold the same example, at any rows, give it the
    same output row. *)
Lemma encoded_rows_agree (self : MLPVariationalAutoEncoder)
    (input_dim code_dim n n' r r' : nat) (x x' : tensor R) :
  valid_model input_dim code_dim self ->
  shape x = [n; input_dim] -> shape x' = [n'; input_dim] ->
  r < n -> r' < n' ->
  (forall p, p < input_dim -> item x [r; p] = item x' [r'; p]) ->
  exists e e',
    encoded_distribution self x = Ok e /\
    encoded_distribution self x' = Ok e' /\
    shape e = [n; code_dim * 2] /\ shape e' = [n'; code_dim * 2] /\
    forall q, q < code_dim * 2 -> item e [r; q] = item e' [r'; q].
Proof.
  intros V Hx Hx' Hr Hr' Hrow.
  destruct (valid_model_params _ _ _ V)
    as (h1 & h2 & eW0 & eb0 & eW1 & eb1 & eW2 & eb2 & dW0 & db0 & dW1 & db1
        & dW2 & db2 & Hp & (E0 & E1 & E2 & E3 & E4 & E5) & _).
  unfold encoded_distribution. rewrite Hp.
  cbn [lookup String.eqb Ascii.eqb Bool.eqb bindR].
  destruct (dense_entry leaky_relu eW0 x eb0 true h1 input_dim n)
    as (a1 & -> & S1 & I1); auto.
  destruct (dense_entry leaky_relu eW0 x' eb0 true h1 input_dim n')
    as (a1' & -> & S1' & I1'); auto.
  cbn [bindR].
  destruct (dense_entry leaky_relu eW1 a1 eb1 false h2 h1 n)
    as (a2 & -> & S2 & I2); auto.
  destruct (dense_entry leaky_relu eW1 a1' eb1 false h2 h1 n')
    as (a2' & -> & S2' & I2'); auto.
  cbn [bindR].
  destruct (dense_entry (fun z => z) eW2 a2 eb2 false (code_dim * 2) h2 n)
    as (a3 & -> & S3 & I3); auto.
  destruct (dense_entry (fun z => z) eW2 a2' eb2 false (code_dim * 2) h2 n')
    as (a3' & -> & S3' & I3'); auto.
  cbn [bindR]. eexists _, _. do 2 (split; [reflexivity|]).
  cbn [transpose shape]. rewrite S3, S3'. do 2 (split; [reflexivity|]).
  intros q Hq. cbn [transpose item rev app].
  rewrite I3, I3' by assumption. f_equal.
  apply Rsum_map_seq_ext. intros l Hl. f_equal.
  rewrite I2, I2' by assumption. do 2 f_equal.
  apply Rsum_map_seq_ext. intros m Hm. f_equal.
  rewrite I1, I1' by assumption. do 2 f_equal.
  apply Rsum_map_seq_ext. intros p Hp'. f_equal. now apply Hrow.
Qed.

(** [encode] treats the examples of a batch independently: an example has
    the same mean and the same standard deviation whatever batch, and
    whatever row of it, it is encoded in. *)
Theorem encode_rowwise (self : MLPVariationalAutoEncoder)
    (input_dim code_dim n n' r r' : nat) (x x' : tensor R) :
  valid_model input_dim code_dim self ->
  shape x = [n; input_dim] -> shape x' = [n'; input_dim] ->
  r < n -> r' < n' ->
  (forall p, p < input_dim -> item x [r; p] = item x' [r'; p]) ->
  exists mean stddev mean' stddev',
    encode self x = Ok (mean, stddev) /\
    encode self x' = Ok (mean', stddev') /\
    forall q, q < code_dim ->
      item mean [r; q] = item mean' [r'; q] /\
      item stddev [r; q] = item stddev' [r'; q].
Proof.
  intros V Hx Hx' Hr Hr' Hrow.
  destruct (encoded_rows_agree self input_dim code_dim n n' r r' x x'
              V Hx Hx' Hr Hr' Hrow) as (e & e' & He & He' & Se & Se' & Hq).
  assert (Hc : int_div (Z.of_nat (code_dim * 2)) 2 = Ok (Z.of_nat code_dim)).
  { rewrite int_div_quot by lia. f_equal. rewrite Nat2Z.inj_mul.
    apply Z.quot_mul. lia. }
  unfold encode. rewrite He, He'. cbn [bindR]. unfold shape_at.
  rewrite Se, Se'. cbn [nth_error bindR]. rewrite Hc. cbn [bindR].
  rewrite Nat2Z.id. unfold cols_to, cols_from. rewrite Se, Se'. cbn [bindR].
  eexists _, _, _, _. do 2 (split; [reflexivity|]).
  intros q Hqc. cbn [item tmap]. split; [apply Hq; lia|].
  f_equal. apply Hq. lia.
Qed.

Lemma encode_rowwise_witness :
  exists mean stddev mean' stddev',
    encode unit_code_model (zeros [3; 2]) = Ok (mean, stddev) /\
    encode unit_code_model (zeros [1; 2]) = Ok (mean', stddev') /\
    forall q, q < 1 ->
      item mean [2; q] = item mean' [0; q] /\
      item stddev [2; q] = item stddev' [0; q].
Proof.
  apply (encode_rowwise unit_code_model 2 1 3 1 2 0 (zeros [3; 2]) (zeros [1; 2])).
  - split; [reflexivity|]. exists 1, 1. reflexivity.
  - reflexivity.
  - reflexivity.
  - lia.
  - lia.
  - intros p _. reflexivity.
Defined.

(** The same for [decode]: the reconstruction of a code depends on that
    code only. *)
Theorem decode_rowwise (self : MLPVariationalAutoEncoder)
    (input_dim code_dim n n' r r' : nat) (z z' : tensor R) :
  valid_model input_dim code_dim self ->
  shape z = [n; code_dim] -> shape z' = [n'; code_dim] ->
  r < n -> r' < n' ->
  (forall q, q < code_dim -> item z [r; q] = item z' [r'; q]) ->
  exists d d',
    decode self z = Ok d /\
    decode self z' = Ok d' /\
    forall p, p < input_dim -> item d [r; p] = item d' [r'; p].
Proof.
  intros V Hz Hz' Hr Hr' Hrow.
  destruct (valid_model_params _ _ _ V)
    as (h1 & h2 & eW0 & eb0 & eW1 & eb1 & eW2 & eb2 & dW0 & db0 & dW1 & db1
        & dW2 & db2 & Hp & _ & (E0 & E1 & E2 & E3 & E4 & E5)).
  unfold decode. rewrite Hp.
  cbn [lookup String.eqb Ascii.eqb Bool.eqb bindR].
  destruct (dense_entry leaky_relu dW0 z db0 true h2 code_dim n)
    as (a1 & -> & S1 & I1); auto.
  destruct (dense_entry leaky_relu dW0 z' db0 true h2 code_dim n')
    as (a1' & -> & S1' & I1'); auto.
  cbn [bindR].
  destruct (dense_entry leaky_relu dW1 a1 db1 false h1 h2 n)
    as (a2 & -> & S2 & I2); auto.
  destruct (dense_entry leaky_relu dW1 a1' db1 false h1 h2 n')
    as (a2' & -> & S2' & I2'); auto.
  cbn [bindR].
  destruct (dense_entry sigmoid dW2 a2 db2 false input_dim h1 n)
    as (a3 & -> & S3 & I3); auto.
  destruct (dense_entry sigmoid dW2 a2' db2 false input_dim h1 n')
    as (a3' & -> & S3' & I3'); auto.
  cbn [bindR]. eexists _, _. do 2 (split; [reflexivity|]).
  intros p Hp'. cbn [transpose item rev app].
  rewrite I3, I3' by assumption. do 2 f_equal.
  apply Rsum_map_seq_ext. intros l Hl. f_equal.
  rewrite I2, I2' by assumption. do 2 f_equal.
  apply Rsum_map_seq_ext. intros m Hm. f_equal.
  rewrite I1, I1' by assumption. do 2 f_equal.
  apply Rsum_map_seq_ext. intros q Hq. f_equal. now apply Hrow.
Qed.

Lemma decode_rowwise_witness :
  exists d d',
    decode unit_code_model (zeros [3; 1]) = Ok d /\
    decode unit_code_model (zeros [1; 1]) = Ok d' /\
    forall p, p < 2 -> item d [2; p] = item d' [0; p].
Proof.
  apply (decode_rowwise unit_code_model 2 1 3 1 2 0 (zeros [3; 1]) (zeros [1; 1])).
  - split; [reflexivity|]. exists 1, 1. reflexivity.
  - reflexivity.
  - reflexivity.
  - lia.
  - lia.
  - intros q _. reflexivity.
Defined.

(** ** Batches of the wrong width *)

Lemma dense_width_mismatch (activation : R -> R) (W x b : tensor R)
    (h k n k' : nat) :
  shape W = [h; k] -> shape x = [n; k'] -> k' <> k ->
  dense activation W x b true = Raise InvalidArgumentError.
Proof.
  intros HW Hx Hk. unfold dense, matmul. rewrite HW, Hx.
  destruct (Nat.eqb_spec k k'); [congruence|reflexivity].
Qed.

(** A batch whose width is not [input_dim] is rejected by the first matrix
    product of the encoder: [encode] raises, and so does [loss], before any
    random number is drawn. *)
Theorem encode_rejects_width (self : MLPVariationalAutoEncoder)
    (input_dim code_dim batch width : nat) (inputs : tensor R) :
  valid_model input_dim code_dim self ->
  shape inputs = [batch; width] ->
  width <> input_dim ->
  encode self inputs = Raise InvalidArgumentError /\
  forall kl g, loss kl self inputs g = (Raise InvalidArgumentError, g).
Proof.
  intros V Hx Hw.
  destruct (valid_model_params _ _ _ V)
    as (h1 & h2 & eW0 & eb0 & eW1 & eb1 & eW2 & eb2 & dW0 & db0 & dW1 & db1
        & dW2 & db2 & Hp & (E0 & _) & _).
  assert (E : encode self inputs = Raise InvalidArgumentError).
  { unfold encode, encoded_distribution. rewrite Hp.
    cbn [lookup String.eqb Ascii.eqb Bool.eqb bindR].
    now rewrite (dense_width_mismatch leaky_relu eW0 inputs eb0
                   h1 input_dim batch width E0 Hx Hw). }
  split; [exact E|]. intros kl g. unfold loss, bind, liftR. now rewrite E.
Qed.

Lemma encode_rejects_width_witness :
  encode unit_code_model (zeros [3; 5]) = Raise InvalidArgumentError /\
  forall kl g,
    loss kl unit_code_model (zeros [3; 5]) g = (Raise InvalidArgumentError, g).
Proof.
  apply (encode_rejects_width unit_code_model 2 1 3 5 (zeros [3; 5])).
  - split; [reflexivity|]. exists 1, 1. reflexivity.
  - reflexivity.
  - lia.
Defined.

(** [decode] likewise rejects codes whose width is not [code_dim]. *)
Theorem decode_rejects_width (self : MLPVariationalAutoEncoder)
    (input_dim code_dim batch width : nat) (sampled_encoding : tensor R) :
  valid_model input_dim code_dim self ->
  shape sampled_encoding = [batch; width] ->
  width <> code_dim ->
  decode self sampled_encoding = Raise InvalidArgumentError.
Proof.
  intros V Hz Hw.
  destruct (valid_model_params _ _ _ V)
    as (h1 & h2 & eW0 & eb0 & eW1 & eb1 & eW2 & eb2 & dW0 & db0 & dW1 & db1
        & dW2 & db2 & Hp & _ & (E0 & _)).
  unfold decode. rewrite Hp.
  cbn [lookup String.eqb Ascii.eqb Bool.eqb bindR].
  now rewrite (dense_width_mismatch leaky_relu dW0 sampled_encoding db0
                 h2 code_dim batch width E0 Hz Hw).
Qed.

Lemma decode_rejects_width_witness :
  decode unit_code_model (zeros [3; 2]) = Raise InvalidArgumentError.
Proof.
  apply (decode_rejects_width unit_code_model 2 1 3 2 (zeros [3; 2])).
  - split; [reflexivity|]. exists 1, 1. reflexivity.
  - reflexivity.
  - lia.
Defined.

(** ** The reconstruction pipeline *)



(** ** Bounds on the loss *)

Lemma Rsum_unit_bounds (l : list R) :
  (forall x, In x l -> (0 <= x <= 1)%R) ->
  (0 <= Rsum l <= INR (length l))%R.
Proof.
  induction l as [|x l IH]; intros H.
  - cbn. lra.
  - cbn [Rsum fold_right length]. rewrite S_INR.
    pose proof (H x (or_introl eq_refl)).
    assert (0 <= Rsum l <= INR (length l))%R
      by (apply IH; intros y Hy; apply H; now right).
    unfold Rsum in *. lra.
Qed.

(** A mean of numbers between 0 and 1 lies between 0 and 1. *)
Lemma mean_unit_bounds (f : nat -> R) (n : nat) :
  0 < n ->
  (forall l, l < n -> (0 <= f l <= 1)%R) ->
  (0 <= Rsum (map f (seq 0 n)) / INR n <= 1)%R.
Proof.
  intros Hn H.
  assert (B : (0 <= Rsum (map f (seq 0 n)) <= INR (length (map f (seq 0 n))))%R).
  { apply Rsum_unit_bounds. intros x Hx. apply in_map_iff in Hx.
    destruct Hx as (l & <- & Hl). apply in_seq in Hl. apply H. lia. }
  rewrite length_map, length_seq in B.
  assert (P : (0 < INR n)%R) by (apply lt_0_INR; lia).
  split.
  - apply Rmult_le_reg_r with (INR n); [exact P|].
    unfold Rdiv. rewrite Rmult_assoc, Rinv_l by lra. lra.
  - apply Rmult_le_reg_r with (INR n); [exact P|].
    unfold Rdiv. rewrite Rmult_assoc, Rinv_l by lra. lra.
Qed.

Lemma indices_vector (n : nat) : indices [n] = map (fun i => [i]) (seq 0 n).
Proof.
  cbn [indices]. generalize 0 as a.
  induction n as [|n IH]; intros a; [reflexivity|].
  cbn [seq flat_map map app]. now rewrite IH.
Qed.

Lemma square_unit (a b : R) :
  (0 <= a <= 1)%R -> (0 <= b <= 1)%R -> (0 <= square (a - b) <= 1)%R.
Proof.
  intros Ha Hb. unfold square.
  assert (0 <= (1 - (a - b)) * (1 + (a - b)))%R by (apply Rmult_le_pos; lra).
  pose proof (Rle_0_sqr (a - b)) as S. unfold Rsqr in S. lra.
Qed.

(** The mean squared error of each example, and its bounds for values
    between 0 and 1. *)
Lemma mean_squared_error_entries (y_true y_pred : tensor R) (n d : nat) :
  shape y_true = [n; d] -> shape y_pred = [n; d] ->
  exists errors, mean_squared_error y_true y_pred = Ok errors /\
    shape errors = [n] /\
    forall r, r < n ->
      item errors [r]
      = (Rsum (map (fun l => square (item y_pred [r; l] - item y_true [r; l]))
                   (seq 0 d)) / INR d)%R.
Proof.
  intros Ht Hp. unfold mean_squared_error, tsub.
  destruct (tmap2_same_shape Rminus y_pred y_true) as (diff & -> & Sd & Id);
    [now rewrite Ht, Hp|].
  cbn [bindR]. unfold reduce_mean_last. cbn [tmap shape]. rewrite Sd, Hp.
  cbn [rev app]. eexists. split; [reflexivity|]. split; [reflexivity|].
  intros r Hr. cbn [item app]. f_equal.
  apply Rsum_map_seq_ext. intros l Hl. cbn [app tmap item]. f_equal.
  apply Id. rewrite Hp. now apply in_bounds_matrix.
Qed.



(** ** The training step and the parameters *)

Lemma param_names_nodup : NoDup param_names.
Proof.
  unfold param_names.
  repeat (constructor; [cbn; intuition discriminate|]). constructor.
Qed.

Lemma lookup_nodup {A : Type} (d : list (string * A)) (k : string) (v : A) :
  NoDup (map fst d) -> In (k, v) d -> lookup k d = Ok v.
Proof.
  induction d as [|[k0 v0] d IH]; cbn; [tauto|].
  intros Hn [E|Hin].
  - injection E as -> ->. now rewrite String.eqb_refl.
  - inversion Hn as [|? ? Hnot Hn']; subst.
    destruct (String.eqb_spec k k0) as [->|_].
    + exfalso. apply Hnot. apply in_map_iff. now exists (k0, v).
    + now apply IH.
Qed.

Lemma mapR_map {A B C : Type} (f : B -> result C) (g : A -> B) (h : A -> C)
    (l : list A) :
  (forall x, In x l -> f (g x) = Ok (h x)) ->
  mapR f (map g l) = Ok (map h l).
Proof.
  induction l as [|x l IH]; intros H; [reflexivity|].
  cbn [map mapR]. rewrite (H x) by now left. cbn [bindR].
  rewrite IH by (intros; apply H; now right). reflexivity.
Qed.

(** With distinct names, the pairs built for the optimizer are, in the order
    of the dictionary, each parameter with the gradient of its name. *)
Lemma grads_and_vars_exact (params : list (string * tensor R))
    (f : string -> tensor R) :
  NoDup (map fst params) ->
  let grads := map (fun kv => (fst kv, f (fst kv))) params in
  mapR (fun key => (g <-? lookup key grads ;;
                    v <-? lookup key params ;;
                    Ok (g, v))%result)
       (map fst grads)
  = Ok (map (fun kv => (f (fst kv), snd kv)) params).
Proof.
  intros Hn grads.
  assert (E : map fst grads = map fst params).
  { unfold grads. rewrite map_map. reflexivity. }
  rewrite E. apply mapR_map. intros [k v] Hin. cbn [fst snd].
  rewrite (lookup_nodup grads k (f k)).
  - cbn [bindR]. now rewrite (lookup_nodup params k v).
  - now rewrite E.
  - unfold grads. apply in_map_iff. now exists (k, v).
Qed.

Lemma assign_all_keeps (params : list (string * tensor R))
    (values : list (tensor R)) :
  map shape values = map (fun kv => shape (snd kv)) params ->
  map fst (assign_all params values) = map fst params /\
  map (fun kv => shape (snd kv)) (assign_all params values)
  = map (fun kv => shape (snd kv)) params.
Proof.
  revert values. induction params as [|[k v] params IH]; intros values H.
  - destruct values; [now split|discriminate].
  - destruct values as [|v' values]; [discriminate|].
    cbn in H. injection H as Hv H. destruct (IH values H) as [E1 E2].
    cbn. rewrite E1, E2, Hv. now split.
Qed.

Section TrainerInvariants.

Variable loss_method : MLPVariationalAutoEncoder -> tensor R -> Rand (tensor R).
Variable optimizer : Type.
Variable apply_gradients :
  optimizer -> list (tensor R * tensor R) -> optimizer * list (tensor R).
Variable gradient :
  MLPVariationalAutoEncoder -> tensor R -> rng -> string -> tensor R.
Variables (inputs val_inputs : tensor R) (num_epochs batch_size : Z).

Local Abbreviation step := (_training_step loss_method optimizer apply_gradients gradient).
Local Abbreviation batches :=
  (train_batches loss_method optimizer apply_gradients gradient
                 inputs batch_size).
Local Abbreviation epoch :=
  (train_epoch loss_method optimizer apply_gradients gradient
               inputs val_inputs num_epochs batch_size).
Local Abbreviation run :=
  (train loss_method optimizer apply_gradients gradient
         inputs val_inputs num_epochs batch_size).

Lemma training_step_ok (st : MLPVariationalAutoEncoder * optimizer)
    (x : tensor R) (w : world) (l : tensor R) (g : rng) :
  NoDup (map fst (_params (fst st))) ->
  loss_method (fst st) x (noise w) = (Ok l, g) ->
  let pairs := map (fun kv => (gradient (fst st) x (noise w) (fst kv), snd kv))
                   (_params (fst st)) in
  let applied := apply_gradients (snd st) pairs in
  step st x w
  = (Ok (Model (assign_all (_params (fst st)) (snd applied)), fst applied),
     World g (trace w ++ [TrainingStep x; ApplyGradients])).
Proof.
  intros Hd El pairs applied.
  unfold _training_step, bind, emit, get_noise, liftN, liftR, ret.
  cbn [noise trace]. rewrite El.
  rewrite (grads_and_vars_exact (_params (fst st))
             (gradient (fst st) x (noise w)) Hd).
  cbn [noise trace]. rewrite <- app_assoc. reflexivity.
Qed.

(** What a training step computes on a valid model: the optimizer is given,
    for each of the twelve parameters in the order of the dictionary, the
    gradient taken for its name and its current value, and the values it
    returns are stored under the same names, in that order; a loss that
    raises leaves the step without any call to the optimizer. *)
Theorem training_step_result (input_dim code_dim : nat)
    (st : MLPVariationalAutoEncoder * optimizer) (x : tensor R) (w : world) :
  valid_model input_dim code_dim (fst st) ->
  let pairs := map (fun kv => (gradient (fst st) x (noise w) (fst kv), snd kv))
                   (_params (fst st)) in
  let applied := apply_gradients (snd st) pairs in
  length pairs = 12 /\
  (forall l g,
     loss_method (fst st) x (noise w) = (Ok l, g) ->
     step st x w
     = (Ok (Model (assign_all (_params (fst st)) (snd applied)), fst applied),
        World g (trace w ++ [TrainingStep x; ApplyGradients]))) /\
  (forall e g,
     loss_method (fst st) x (noise w) = (Raise e, g) ->
     step st x w = (Raise e, World g (trace w ++ [TrainingStep x]))).
Proof.
  intros [Hn _] pairs applied. split.
  { unfold pairs. rewrite length_map, <- (length_map fst), Hn. reflexivity. }
  assert (Hd : NoDup (map fst (_params (fst st))))
    by (rewrite Hn; apply param_names_nodup).
  split.
  - intros l g El. exact (training_step_ok st x w l g Hd El).
  - intros e g El.
    unfold _training_step, bind, emit, get_noise, liftN, liftR, ret.
    cbn [noise trace]. rewrite El. reflexivity.
Qed.

Lemma step_keeps_params (st st' : MLPVariationalAutoEncoder * optimizer)
    (x : tensor R) (w w' : world) :
  keeps_shapes apply_gradients ->
  NoDup (map fst (_params (fst st))) ->
  step st x w = (Ok st', w') ->
  map fst (_params (fst st')) = map fst (_params (fst st)) /\
  param_shapes (fst st') = param_shapes (fst st).
Proof.
  intros Hk Hd E.
  destruct (loss_method (fst st) x (noise w)) as [[l|e] g] eqn:El.
  - rewrite (training_step_ok st x w l g Hd El) in E. injection E as <- _.
    cbn [fst _params]. unfold param_shapes. cbn [_params].
    apply assign_all_keeps. rewrite Hk, map_map. reflexivity.
  - destruct (training_step_cases loss_method optimizer apply_gradients gradient
                st x w) as [(? & ? & ? & El' & _)|(? & ? & _ & E')];
      congruence.
Qed.

Lemma for_each_invariant {S A X : Type} (P : A -> Prop)
    (body : X -> A -> ST S A) :
  (forall x a s a' s', P a -> body x a s = (Ok a', s') -> P a') ->
  forall xs a s a' s',
    P a -> for_each xs body a s = (Ok a', s') -> P a'.
Proof.
  intros Hb xs. induction xs as [|x xs IH]; intros a s a' s' Ha E.
  - injection E as <- _. exact Ha.
  - rewrite for_each_cons in E.
    destruct (body x a s) as [[a1|e] s1] eqn:Eb; [|discriminate].
    apply (IH a1 s1 a' s'); [|exact E]. now apply (Hb x a s a1 s1).
Qed.

Lemma for_break_invariant {S A X : Type} (P : A -> Prop)
    (body : X -> A -> ST S (A * bool)) :
  (forall x a s a' stop s', P a -> body x a s = (Ok (a', stop), s') -> P a') ->
  forall xs a s a' s',
    P a -> for_break xs body a s = (Ok a', s') -> P a'.
Proof.
  intros Hb xs. induction xs as [|x xs IH]; intros a s a' s' Ha E.
  - injection E as <- _. exact Ha.
  - rewrite for_break_cons in E.
    destruct (body x a s) as [[[a1 stop]|e] s1] eqn:Eb; [|discriminate].
    pose proof (Hb x a s a1 stop s1 Ha Eb) as H1.
    destruct stop.
    + injection E as <- _. exact H1.
    + now apply (IH a1 s1 a' s').
Qed.

Lemma batches_keep_params (st0 st st' : MLPVariationalAutoEncoder * optimizer)
    (w w' : world) :
  keeps_shapes apply_gradients ->
  NoDup (map fst (_params (fst st0))) ->
  (map fst (_params (fst st)) = map fst (_params (fst st0)) /\
   param_shapes (fst st) = param_shapes (fst st0)) ->
  batches st w = (Ok st', w') ->
  map fst (_params (fst st')) = map fst (_params (fst st0)) /\
  param_shapes (fst st') = param_shapes (fst st0).
Proof.
  intros Hk Hd V E. unfold train_batches, bind at 1, liftR at 1 in E.
  destruct (shape_at inputs 0) as [rows|]; [|discriminate].
  unfold bind at 1, liftR at 1 in E.
  destruct (int_div (Z.of_nat rows) batch_size) as [count|]; [|discriminate].
  revert E.
  apply (for_each_invariant
           (fun a : MLPVariationalAutoEncoder * optimizer =>
              map fst (_params (fst a)) = map fst (_params (fst st0)) /\
              param_shapes (fst a) = param_shapes (fst st0))); [|exact V].
  intros k a s a' s' [Ha1 Ha2]. unfold bind, liftR.
  destruct (rows_slice _ _ inputs) as [b|]; [|discriminate].
  intros E. destruct (step_keeps_params a a' b s s' Hk) as [E1 E2];
    [now rewrite Ha1|exact E|].
  split; congruence.
Qed.

Lemma epoch_keeps_params (e : Z)
    (st0 st st' : MLPVariationalAutoEncoder * optimizer) (stop : bool)
    (w w' : world) :
  keeps_shapes apply_gradients ->
  NoDup (map fst (_params (fst st0))) ->
  (map fst (_params (fst st)) = map fst (_params (fst st0)) /\
   param_shapes (fst st) = param_shapes (fst st0)) ->
  epoch e st w = (Ok (st', stop), w') ->
  map fst (_params (fst st')) = map fst (_params (fst st0)) /\
  param_shapes (fst st') = param_shapes (fst st0).
Proof.
  intros Hk Hd V E. unfold train_epoch, bind at 1 in E.
  destruct (batches st w) as [[st1|] w1] eqn:Eb; [|discriminate].
  pose proof (batches_keep_params st0 st st1 w w1 Hk Hd V Eb) as V1.
  unfold bind, liftN, emit, liftR, ret in E.
  destruct (loss_method (fst st1) inputs (noise w1)) as [[tl|] g1];
    [|discriminate].
  cbn [noise trace] in E.
  destruct (loss_method (fst st1) val_inputs g1) as [[vl|] g2]; [|discriminate].
  destruct (early_stop e tl vl) as [[|]|]; [| |discriminate];
    injection E as <- _ _; exact V1.
Qed.

(** Training keeps the model valid: with an optimizer that returns values of
    the shapes of the variables, whatever the loss, the data and the number
    of epochs, a run of [train] that returns leaves the twelve parameters
    under their names and with the shapes they had, so that [encode] and
    [decode] work after training as they did before. *)
Theorem train_keeps_valid (input_dim code_dim : nat)
    (st st' : MLPVariationalAutoEncoder * optimizer) (w w' : world) :
  keeps_shapes apply_gradients ->
  valid_model input_dim code_dim (fst st) ->
  run st w = (Ok st', w') ->
  map fst (_params (fst st')) = map fst (_params (fst st)) /\
  param_shapes (fst st') = param_shapes (fst st) /\
  valid_model input_dim code_dim (fst st').
Proof.
  intros Hk [Hn (h1 & h2 & Hs)] E. unfold train in E.
  assert (Hd : NoDup (map fst (_params (fst st))))
    by (rewrite Hn; apply param_names_nodup).
  assert (I : map fst (_params (fst st')) = map fst (_params (fst st)) /\
              param_shapes (fst st') = param_shapes (fst st)).
  { revert E.
    apply (for_break_invariant
             (fun a : MLPVariationalAutoEncoder * optimizer =>
                map fst (_params (fst a)) = map fst (_params (fst st)) /\
                param_shapes (fst a) = param_shapes (fst st))); [|now split].
    intros e a s a' stop s' Ha Ee.
    now apply (epoch_keeps_params e st a a' stop s s'). }
  destruct I as [I1 I2]. split; [exact I1|]. split; [exact I2|].
  split; [congruence|]. exists h1, h2. congruence.
Qed.

Lemma epoch_quiet (n : nat) (rest : list nat) (e : Z)
    (st : MLPVariationalAutoEncoder * optimizer) (w : world) :
  (0 < batch_size)%Z -> shape inputs = n :: rest ->
  (forall self x g, exists l g', loss_method self x g = (Ok l, g')) ->
  (e <= 15)%Z ->
  exists st1 w1 tl vl,
    epoch e st w = (Ok (st1, false), w1) /\
    trace w1 = trace w ++ epoch_steps inputs batch_size n
               ++ [PrintEpoch e num_epochs tl vl].
Proof.
  intros Hb Hs Hl He.
  destruct (train_batches_trace loss_method optimizer apply_gradients gradient
              inputs batch_size st w) as (steps & Ht & _ & Hn).
  destruct (Hn n rest Hb Hs) as [Hsteps Htot].
  destruct (Htot Hl) as [st1 E1].
  unfold train_epoch, bind, liftN, emit, liftR, ret.
  destruct (batches st w) as [r1 w1]. cbn [fst snd] in *. subst r1.
  rewrite (Hsteps st1 eq_refl) in Ht.
  destruct (Hl (fst st1) inputs (noise w1)) as (tl & g1 & ->).
  cbn [noise trace].
  destruct (Hl (fst st1) val_inputs g1) as (vl & g2 & ->).
  cbn [noise trace]. unfold early_stop.
  destruct (Z.ltb_spec 15 e); [lia|].
  eexists _, _, tl, vl. split; [reflexivity|].
  cbn [trace]. rewrite Ht, <- app_assoc. reflexivity.
Qed.

(** Epochs numbered up to 15 run one after the other, whatever the losses
    are. *)
Lemma quiet_epochs (n : nat) (rest : list nat) :
  (0 < batch_size)%Z -> shape inputs = n :: rest ->
  (forall self x g, exists l g', loss_method self x g = (Ok l, g')) ->
  forall xs, Forall (fun e => (e <= 15)%Z) xs ->
  forall ys st w,
  exists st1 w1 reports,
    for_break (xs ++ ys) epoch st w = for_break ys epoch st1 w1 /\
    map fst reports = xs /\
    trace w1 = trace w ++ epochs_trace inputs batch_size n num_epochs reports.
Proof.
  intros Hb Hs Hl xs Hxs. induction Hxs as [|x xs Hx _ IH]; intros ys st w.
  - exists st, w, []. cbn. now rewrite app_nil_r.
  - cbn [app]. rewrite for_break_cons.
    destruct (epoch_quiet n rest x st w Hb Hs Hl Hx)
      as (st1 & w1 & tl & vl & -> & Ht).
    destruct (IH ys st1 w1) as (st2 & w2 & reports & E & Hr & Ht2).
    exists st2, w2, ((x, (tl, vl)) :: reports).
    split; [exact E|]. split; [cbn; now rewrite Hr|].
    rewrite Ht2, Ht. unfold epochs_trace. cbn [flat_map fst snd].
    rewrite <- !app_assoc. reflexivity.
Qed.

Lemma range_upto_15 (N : Z) :
  (N <= 15)%Z -> Forall (fun e => (e <= 15)%Z) (range 1 (N + 1)).
Proof.
  intros H. apply Forall_forall. intros e He. unfold range in He.
  apply in_map_iff in He. destruct He as (k & <- & Hk).
  apply in_seq in Hk. lia.
Qed.

(** The first 15 epochs never stop early, and never look at the comparison
    of the losses: when at most 15 epochs are asked for and the loss does not
    raise, [train] runs them all and returns, whether or not the losses are
    scalars, and prints no stop message. *)
Theorem first_epochs_complete (n : nat) (rest : list nat)
    (st : MLPVariationalAutoEncoder * optimizer) (w : world) :
  (0 < batch_size)%Z -> shape inputs = n :: rest ->
  (forall self x g, exists l g', loss_method self x g = (Ok l, g')) ->
  (num_epochs <= 15)%Z ->
  exists st' w' reports,
    run st w = (Ok st', w') /\
    map fst reports = range 1 (num_epochs + 1) /\
    trace w' = trace w ++ epochs_trace inputs batch_size n num_epochs reports.
Proof.
  intros Hb Hs Hl HN. unfold train.
  destruct (quiet_epochs n rest Hb Hs Hl (range 1 (num_epochs + 1))
              (range_upto_15 num_epochs HN) [] st w)
    as (st1 & w1 & reports & E & Hr & Ht).
  rewrite app_nil_r in E. exists st1, w1, reports.
  split; [rewrite E; reflexivity|]. now split.
Qed.

Lemma range_from_16 (N : Z) :
  (16 <= N)%Z -> exists tail, range 1 (N + 1) = range 1 16 ++ 16%Z :: tail.
Proof.
  intros H. unfold range.
  replace (Z.to_nat (N + 1 - 1)) with (15 + S (Z.to_nat (N - 16))) by lia.
  rewrite seq_app, map_app. cbn [Nat.add seq map].
  eexists. reflexivity.
Qed.

(** With a loss that is not reduced to a scalar, but returns tensors of one
    shape with several entries, [train] cannot get past epoch 16: epochs 1
    to 16 run and are reported, and then the stopping test raises
    [ValueError], the truth value of a tensor of several entries being
    undefined.  No stop message is printed and no later epoch is run. *)
Theorem unreduced_loss_fails (n : nat) (rest s : list nat)
    (st : MLPVariationalAutoEncoder * optimizer) (w : world) :
  (0 < batch_size)%Z -> shape inputs = n :: rest ->
  (forall self x g, exists l g',
      loss_method self x g = (Ok l, g') /\ shape l = s) ->
  2 <= numel s ->
  (16 <= num_epochs)%Z ->
  exists w' reports,
    run st w = (Raise ValueError, w') /\
    map fst reports = range 1 17 /\
    trace w' = trace w ++ epochs_trace inputs batch_size n num_epochs reports.
Proof.
  intros Hb Hs Hl Hn HN. unfold train.
  assert (Hl' : forall self x g, exists l g', loss_method self x g = (Ok l, g')).
  { intros self x g. destruct (Hl self x g) as (l & g' & E & _). eauto. }
  destruct (range_from_16 num_epochs HN) as [tail ->].
  destruct (quiet_epochs n rest Hb Hs Hl' (range 1 16)
              (range_upto_15 15 ltac:(lia)) (16%Z :: tail) st w)
    as (st1 & w1 & reports & -> & Hr & Ht).
  rewrite for_break_cons.
  destruct (train_batches_trace loss_method optimizer apply_gradients gradient
              inputs batch_size st1 w1) as (steps & Hts & _ & Hns).
  destruct (Hns n rest Hb Hs) as [Hsteps Htot].
  destruct (Htot Hl') as [st2 E2].
  unfold train_epoch, bind, liftN, emit, liftR, ret.
  destruct (batches st1 w1) as [r2 w2]. cbn [fst snd] in *. subst r2.
  rewrite (Hsteps st2 eq_refl) in Hts.
  destruct (Hl (fst st2) inputs (noise w2)) as (tl & g1 & -> & Stl).
  cbn [noise trace].
  destruct (Hl (fst st2) val_inputs g1) as (vl & g2 & -> & Svl).
  cbn [noise trace].
  rewrite (early_stop_on_tensors 16 tl vl) by (try lia; congruence).
  eexists _, (reports ++ [(16%Z, (tl, vl))]). split; [reflexivity|].
  split; [rewrite map_app, Hr; reflexivity|].
  cbn [trace]. rewrite Hts, Ht. unfold epochs_trace.
  rewrite flat_map_app. cbn [flat_map fst snd].
  rewrite app_nil_r, <- !app_assoc. reflexivity.
Qed.

Lemma steps_hold_only_steps (steps pre post : list event) (y : event) :
  Forall is_step steps -> ~ is_step y -> steps <> pre ++ y :: post.
Proof.
  intros Hf Hy E. rewrite E in Hf. now apply Forall_elt in Hf.
Qed.

Lemma early_stop_true (e : Z) (tl vl : tensor R) :
  early_stop e tl vl = Ok true ->
  (15 < e)%Z /\ (is_scalar tl -> is_scalar vl -> diverged tl vl).
Proof.
  intros E. assert (He : (15 < e)%Z).
  { unfold early_stop in E. destruct (Z.ltb_spec 15 e); [assumption|discriminate]. }
  split; [exact He|]. intros Stl Svl.
  rewrite (early_stop_scalars e tl vl Stl Svl) in E. injection E as E.
  apply andb_prop in E. destruct E as [_ E]. unfold Rgtb in E.
  destruct (Rgt_dec _ _) as [G|]; [|discriminate]. now repeat split.
Qed.

(** The outer loop over any list of epoch numbers prints the stop message
    only as its last action, right after the report of an epoch on which the
    stopping test held. *)
Lemma epochs_stop_only (xs : list Z) :
  forall (st : MLPVariationalAutoEncoder * optimizer) (w : world),
  exists new,
    trace (snd (for_break xs epoch st w)) = trace w ++ new /\
    forall pre post,
      new = pre ++ PrintStopped :: post ->
      post = [] /\
      (exists pre' e tl vl,
         pre = pre' ++ [PrintEpoch e num_epochs tl vl] /\
         early_stop e tl vl = Ok true) /\
      exists st', fst (for_break xs epoch st w) = Ok st'.
Proof.
  assert (Hps : ~ is_step PrintStopped) by (intros []).
  induction xs as [|x xs IH]; intros st w.
  { exists []. cbn. rewrite app_nil_r. split; [reflexivity|].
    intros pre post E. now destruct pre. }
  rewrite for_break_cons.
  destruct (train_epoch_cases loss_method optimizer apply_gradients gradient
              inputs val_inputs num_epochs batch_size x st w)
    as (steps & Hf & [(err & w' & -> & Ht)
                     |[(err & w' & tl0 & vl0 & -> & Ht & Es)
                      |(st' & w' & tl0 & vl0 & stop & -> & Es & Ht & _)]]).
  - exists steps. split; [exact Ht|].
    intros pre post E. now apply steps_hold_only_steps in E.
  - exists (steps ++ [PrintEpoch x num_epochs tl0 vl0]). split; [exact Ht|].
    intros pre post E. exfalso.
    apply split_at_report in E; auto using report_not_step.
    destruct E as [(_ & [=] & _)|(pre' & _ & E)]. now destruct pre'.
  - destruct stop.
    + exists (steps ++ [PrintEpoch x num_epochs tl0 vl0; PrintStopped]).
      split; [exact Ht|].
      intros pre post E.
      apply split_at_report in E; auto using report_not_step.
      destruct E as [(_ & [=] & _)|(pre' & -> & E)].
      destruct pre' as [|p pre']; cbn in E.
      * injection E as <-. split; [reflexivity|]. split; [|now exists st'].
        exists steps, x, tl0, vl0. now split.
      * injection E as _ E. now destruct pre'.
    + destruct (IH st' w') as (new & Hn & Hsplit).
      exists (steps ++ PrintEpoch x num_epochs tl0 vl0 :: new).
      split; [rewrite Hn, Ht, <- !app_assoc; reflexivity|].
      intros pre post E.
      apply split_at_report in E; auto using report_not_step.
      destruct E as [(_ & [=] & _)|(pre' & -> & E)].
      destruct (Hsplit pre' post E) as (Hp & (p & e & tl & vl & -> & Ee) & Hok).
      split; [exact Hp|]. split; [|exact Hok].
      exists (steps ++ PrintEpoch x num_epochs tl0 vl0 :: p), e, tl, vl.
      split; [now rewrite <- app_assoc|exact Ee].
Qed.

(** [train] stops early only for the reason the source gives: whenever the
    stop message is printed, it is the last thing the run does, the run
    returns normally, and the message follows the report of an epoch
    numbered above 15 on which the stopping test held; for scalar losses,
    that is [val_loss - train_loss > train_loss / 32]. *)
Theorem stops_only_when_diverged
    (st : MLPVariationalAutoEncoder * optimizer) (w : world)
    (pre post : list event) :
  trace (snd (run st w)) = trace w ++ pre ++ PrintStopped :: post ->
  post = [] /\
  (exists pre' e tl vl,
     pre = pre' ++ [PrintEpoch e num_epochs tl vl] /\
     (15 < e)%Z /\
     early_stop e tl vl = Ok true /\
     (is_scalar tl -> is_scalar vl -> diverged tl vl)) /\
  exists st', fst (run st w) = Ok st'.
Proof.
  intros Ht. unfold train in *.
  destruct (epochs_stop_only (range 1 (num_epochs + 1)) st w)
    as (new & Hn & Hsplit).
  rewrite Hn in Ht. apply app_inv_head in Ht.
  destruct (Hsplit pre post Ht) as (Hp & (p & e & tl & vl & Hpre & Ee) & Hok).
  split; [exact Hp|]. split; [|exact Hok].
  exists p, e, tl, vl. destruct (early_stop_true e tl vl Ee) as [He Hd].
  split; [exact Hpre|]. split; [exact He|]. split; [exact Ee|exact Hd].
Qed.

(** Batch sizes that are not positive, or exceed the training set.  With a
    batch size of zero, [train] raises [ZeroDivisionError] in its first
    epoch, before any training step and any evaluation of the loss.  With a
    negative batch size, or one larger than the number of rows, the inner
    loop of every epoch makes no training step at all and leaves the model
    as it is. *)
Theorem degenerate_batch_sizes (n : nat) (rest : list nat)
    (st : MLPVariationalAutoEncoder * optimizer) (w : world) :
  shape inputs = n :: rest ->
  (batch_size = 0%Z -> (1 <= num_epochs)%Z ->
   run st w = (Raise ZeroDivisionError, w)) /\
  ((batch_size < 0)%Z \/ (Z.of_nat n < batch_size)%Z ->
   batches st w = (Ok st, w)).
Proof.
  intros Hs. split.
  - intros Hz HN.
    assert (Eb : batches st w = (Raise ZeroDivisionError, w)).
    { unfold train_batches, shape_at. rewrite Hs. cbn [nth_error].
      rewrite bind_liftR_ok. unfold int_div. rewrite Hz. reflexivity. }
    unfold train, range.
    replace (Z.to_nat (num_epochs + 1 - 1)) with (S (Z.to_nat (num_epochs - 1)))
      by lia.
    cbn [seq map]. rewrite for_break_cons.
    unfold train_epoch, bind at 1. rewrite Eb. reflexivity.
  - intros Hb.
    unfold train_batches, shape_at. rewrite Hs. cbn [nth_error].
    rewrite bind_liftR_ok, int_div_quot by lia. rewrite bind_liftR_ok.
    unfold range.
    replace (Z.to_nat (Z.quot (Z.of_nat n) batch_size - 0)) with 0.
    + reflexivity.
    + destruct Hb as [Hb|Hb].
      * pose proof (Z.quot_opp_r (Z.of_nat n) (- batch_size) ltac:(lia)) as Q.
        rewrite Z.opp_involutive in Q.
        pose proof (Z.quot_pos (Z.of_nat n) (- batch_size) ltac:(lia) ltac:(lia)).
        lia.
      * rewrite Z.quot_small by lia. reflexivity.
Qed.

(** A returning run over a non-empty list of epochs has reported at least
    its first epoch. *)
Lemma epochs_steps_first (n : nat) (rest : list nat) (x : Z) (xs : list Z)
    (st st' : MLPVariationalAutoEncoder * optimizer) (w w' : world) :
  (0 < batch_size)%Z -> shape inputs = n :: rest ->
  for_break (x :: xs) epoch st w = (Ok st', w') ->
  exists reports stopped,
    reports <> [] /\
    map fst reports = firstn (length reports) (x :: xs) /\
    trace w' = trace w
               ++ epochs_trace inputs batch_size n num_epochs reports
               ++ (if stopped : bool then [PrintStopped] else []).
Proof.
  intros Hb Hs E.
  destruct (epochs_steps loss_method optimizer apply_gradients gradient
              inputs val_inputs num_epochs batch_size n rest Hb Hs
              (x :: xs) st st' w w' E) as (reports & stopped & Hr & Ht).
  exists reports, stopped. split; [|now split].
  intros ->. cbn in Ht. rewrite for_break_cons in E.
  destruct (train_epoch_cases loss_method optimizer apply_gradients gradient
              inputs val_inputs num_epochs batch_size x st w)
    as (steps & Hf & [(err & w1 & Ee & _)
                     |[(err & w1 & tl & vl & Ee & _)
                      |(st1 & w1 & tl & vl & stop & Ee & _ & Ht1 & _)]]);
    rewrite Ee in E; try discriminate.
  assert (Hext : exists more, trace w' = trace w1 ++ more).
  { destruct stop.
    - injection E as _ <-. exists []. now rewrite app_nil_r.
    - destruct (epochs_stop loss_method optimizer apply_gradients gradient
                  inputs val_inputs num_epochs batch_size xs st1 w1)
        as (new & Hn & _).
      rewrite E in Hn. now exists new. }
  destruct Hext as [more Hm]. rewrite Hm, Ht1 in Ht.
  rewrite <- !app_assoc in Ht. apply app_inv_head in Ht.
  rewrite <- app_comm_cons in Ht.
  destruct stopped.
  - apply (split_at_report steps _ [] [] _ PrintStopped Hf) in Ht.
    + destruct Ht as [(_ & [=] & _)|(pre' & E' & _)]. now destruct steps.
    + apply report_not_step.
    + intros [].
  - destruct steps; discriminate.
Qed.

(** Early stopping never shortens a run below 16 epochs: when at least 16
    epochs are asked for and the loss always evaluates to a scalar, [train]
    returns after having run and reported epochs 1 to 16 at least, whatever
    the losses were. *)
Theorem at_least_16_epochs (n : nat) (rest : list nat)
    (st : MLPVariationalAutoEncoder * optimizer) (w : world) :
  (0 < batch_size)%Z -> shape inputs = n :: rest ->
  (forall self x g, exists l g',
      loss_method self x g = (Ok l, g') /\ is_scalar l) ->
  (16 <= num_epochs)%Z ->
  exists st' w' reports stopped,
    run st w = (Ok st', w') /\
    16 <= length reports /\
    map fst reports = firstn (length reports) (range 1 (num_epochs + 1)) /\
    trace w' = trace w
               ++ epochs_trace inputs batch_size n num_epochs reports
               ++ (if stopped : bool then [PrintStopped] else []).
Proof.
  intros Hb Hs Hl HN. unfold train.
  assert (Hl' : forall self x g, exists l g', loss_method self x g = (Ok l, g')).
  { intros self x g. destruct (Hl self x g) as (l & g' & E & _). eauto. }
  destruct (range_from_16 num_epochs HN) as [tail ->].
  destruct (quiet_epochs n rest Hb Hs Hl' (range 1 16)
              (range_upto_15 15 ltac:(lia)) (16%Z :: tail) st w)
    as (st1 & w1 & reports & -> & Hr & Ht).
  destruct (epochs_total loss_method optimizer apply_gradients gradient
              inputs val_inputs num_epochs batch_size n rest Hb Hs Hl
              (16%Z :: tail) st1 w1) as (st' & w' & E).
  destruct (epochs_steps_first n rest 16 tail st1 st' w1 w' Hb Hs E)
    as (reports' & stopped & Hne & Hr' & Ht').
  exists st', w', (reports ++ reports'), stopped.
  assert (L : length reports = 15).
  { rewrite <- (length_map fst), Hr. reflexivity. }
  split; [exact E|]. split; [|split].
  - rewrite length_app, L. destruct reports'; [contradiction|cbn; lia].
  - rewrite map_app, Hr, Hr', length_app, L.
    change 15 with (length (range 1 16)). now rewrite firstn_app_2.
  - rewrite Ht', Ht. unfold epochs_trace. rewrite flat_map_app.
    rewrite <- !app_assoc. reflexivity.
Qed.

End TrainerInvariants.

Lemma idle_keeps_shapes : keeps_shapes idle_apply_gradients.
Proof. intros o pairs. cbn. now rewrite map_map. Qed.

Lemma rows_loss_scalar (self : MLPVariationalAutoEncoder) (x : tensor R)
    (g : rng) :
  exists l g', rows_loss self x g = (Ok l, g') /\ is_scalar l.
Proof. eexists _, _. split; reflexivity. Qed.

Lemma vector_loss_shape (self : MLPVariationalAutoEncoder) (x : tensor R)
    (g : rng) :
  exists l g', vector_loss self x g = (Ok l, g') /\ shape l = [2].
Proof. eexists _, _. split; reflexivity. Qed.

Lemma vector_loss_total (self : MLPVariationalAutoEncoder) (x : tensor R)
    (g : rng) :
  exists l g', vector_loss self x g = (Ok l, g').
Proof. eexists _, _. reflexivity. Qed.

Lemma training_step_result_witness :
  length (map (fun kv => (zero_gradient (fst simulated_start) (zeros [1; 2])
                            (noise initial_world) (fst kv), snd kv))
              (_params (fst simulated_start))) = 12.
Proof.
  exact (proj1 (training_step_result rows_loss unit idle_apply_gradients
                  zero_gradient 2 1 simulated_start (zeros [1; 2]) initial_world
                  (zero_model_valid 2 1 1 1))).
Defined.

Lemma train_keeps_valid_witness :
  exists st' w',
    simulated_train (zeros [5; 2]) (zeros [3; 2]) 2 2 simulated_start initial_world
    = (Ok st', w') /\
    valid_model 2 1 (fst st').
Proof.
  destruct (epochs_total rows_loss unit idle_apply_gradients zero_gradient
              (zeros [5; 2]) (zeros [3; 2]) 2 2 5 [2] ltac:(lia) eq_refl
              rows_loss_scalar (range 1 (2 + 1)) simulated_start initial_world)
    as (st' & w' & E).
  exists st', w'. split; [exact E|].
  exact (proj2 (proj2 (train_keeps_valid rows_loss unit idle_apply_gradients
                         zero_gradient (zeros [5; 2]) (zeros [3; 2]) 2 2 2 1
                         simulated_start st' initial_world w'
                         idle_keeps_shapes (zero_model_valid 2 1 1 1) E))).
Defined.

Lemma first_epochs_complete_witness :
  exists st' w' reports,
    train vector_loss unit idle_apply_gradients zero_gradient
          (zeros [5; 2]) (zeros [3; 2]) 15 2 simulated_start initial_world
    = (Ok st', w') /\
    map fst reports = range 1 (15 + 1) /\
    trace w' = trace initial_world
               ++ epochs_trace (zeros [5; 2]) 2 5 15 reports.
Proof.
  apply (first_epochs_complete vector_loss unit idle_apply_gradients
           zero_gradient (zeros [5; 2]) (zeros [3; 2]) 15 2 5 [2]
           simulated_start initial_world).
  - lia.
  - reflexivity.
  - exact vector_loss_total.
  - lia.
Defined.

Lemma unreduced_loss_fails_witness :
  exists w' reports,
    train vector_loss unit idle_apply_gradients zero_gradient
          (zeros [5; 2]) (zeros [3; 2]) 32 2 simulated_start initial_world
    = (Raise ValueError, w') /\
    map fst reports = range 1 17 /\
    trace w' = trace initial_world
               ++ epochs_trace (zeros [5; 2]) 2 5 32 reports.
Proof.
  apply (unreduced_loss_fails vector_loss unit idle_apply_gradients
           zero_gradient (zeros [5; 2]) (zeros [3; 2]) 32 2 5 [2] [2]
           simulated_start initial_world).
  - lia.
  - reflexivity.
  - exact vector_loss_shape.
  - cbn. lia.
  - lia.
Defined.

Lemma stops_only_when_diverged_witness :
  exists st',
    fst (simulated_train (zeros [1; 2]) (zeros [2; 2]) 32 1
           simulated_start initial_world) = Ok st'.
Proof.
  apply (stops_only_when_diverged rows_loss unit idle_apply_gradients
           zero_gradient (zeros [1; 2]) (zeros [2; 2]) 32 1
           simulated_start initial_world
           (simulated_prefix
            ++ [PrintEpoch 16 32 (scalar (INR 1)) (scalar (INR 2))]) []).
  rewrite <- app_assoc. exact simulated_trace.
Defined.

Lemma degenerate_batch_sizes_witness :
  simulated_train (zeros [5; 2]) (zeros [3; 2]) 3 0 simulated_start initial_world
  = (Raise ZeroDivisionError, initial_world).
Proof.
  apply (degenerate_batch_sizes rows_loss unit idle_apply_gradients zero_gradient
           (zeros [5; 2]) (zeros [3; 2]) 3 0 5 [2] simulated_start initial_world
           eq_refl).
  - reflexivity.
  - lia.
Defined.

(** ** More on the constructor *)

Lemma normal_variable_negative (d : Z) (dims : list Z) (w : world) :
  (d < 0)%Z ->
  normal_variable (d :: dims) w = (Raise InvalidArgumentError, w).
Proof.
  intros H. unfold normal_variable, random_normal, bind, liftN, liftR.
  cbn [as_shape]. destruct (Z.ltb_spec d 0); [|lia]. destruct w; reflexivity.
Qed.

Lemma init_rejects_negative (input_dim code_dim : Z) (w : world) :
  (code_dim < input_dim)%Z -> (code_dim < 0)%Z ->
  exists w', __init__ input_dim code_dim w = (Raise InvalidArgumentError, w').
Proof.
  intros Hi Hc. unfold __init__, bind at 1, liftR, assertR.
  destruct (Z.ltb_spec code_dim input_dim) as [_|]; [|lia].
  cbv zeta. unfold bind, ret.
  destruct (normal_variable_cases
              [hidden_1_dim input_dim code_dim; input_dim] w)
    as [(t0 & w0 & ->)| ->]; [|eexists; reflexivity].
  destruct (zeros_variable_cases [hidden_1_dim input_dim code_dim; 1%Z] w0)
    as [(t1 & w1 & ->)| ->]; [|eexists; reflexivity].
  destruct (normal_variable_cases
              [hidden_2_dim input_dim code_dim; hidden_1_dim input_dim code_dim]
              w1)
    as [(t2 & w2 & ->)| ->]; [|eexists; reflexivity].
  destruct (zeros_variable_cases [hidden_2_dim input_dim code_dim; 1%Z] w2)
    as [(t3 & w3 & ->)| ->]; [|eexists; reflexivity].
  rewrite normal_variable_negative by lia. eexists; reflexivity.
Qed.

(** The constructor has three outcomes.  It returns a model exactly when
    [0 <= code_dim < input_dim], an empty code ([code_dim = 0]) included;
    it raises the assertion error when [code_dim >= input_dim]; and for a
    negative [code_dim] below [input_dim], which the assertion lets
    through, it fails when a tensor of negative size is requested. *)
Theorem init_outcome (input_dim code_dim : Z) (w : world) :
  ((exists self w', __init__ input_dim code_dim w = (Ok self, w'))
   <-> (0 <= code_dim < input_dim)%Z) /\
  ((code_dim < input_dim)%Z -> (code_dim < 0)%Z ->
   exists w', __init__ input_dim code_dim w = (Raise InvalidArgumentError, w')).
Proof.
  split; [split|apply init_rejects_negative].
  - intros (self & w' & E).
    destruct (Z_lt_ge_dec code_dim input_dim) as [L|G].
    + destruct (Z_lt_ge_dec code_dim 0) as [N|P]; [|lia].
      destruct (init_rejects_negative input_dim code_dim w L N) as [w'' E'].
      congruence.
    + unfold __init__, bind at 1, liftR, assertR in E.
      destruct (Z.ltb_spec code_dim input_dim); [lia|discriminate].
  - intros [Hc Hi].
    destruct (init_builds input_dim code_dim w Hc Hi) as (self & w' & E & _).
    eauto.
Qed.

Lemma init_outcome_witness :
  exists w', __init__ 4 (-4) initial_world = (Raise InvalidArgumentError, w').
Proof.
  apply (init_outcome 4 (-4) initial_world); lia.
Defined.

Lemma normal_variable_items (dims : list Z) (s : list nat) (w : world) :
  as_shape dims = Ok s ->
  exists t, shape t = s /\
    (forall idx, exists k, item t idx = (noise w k * (5 / 100) + 0)%R) /\
    normal_variable dims w
    = (Ok t, World (fun k => noise w (numel s + k)) (trace w ++ [NewVariable s])).
Proof.
  intros E. unfold normal_variable, random_normal, bind, liftN, liftR.
  rewrite E. unfold random_standard_normal, tmul, tadd.
  rewrite tmap2_scalar_r. cbn [shape]. rewrite tmap2_scalar_r.
  eexists. split; [|split]. 3: reflexivity.
  - reflexivity.
  - intros idx. cbn [item]. eexists. reflexivity.
Qed.

Lemma zeros_variable_items (dims : list Z) (s : list nat) (w : world) :
  as_shape dims = Ok s ->
  exists t, shape t = s /\
    (forall idx, item t idx = 0%R) /\
    zeros_variable dims w = (Ok t, World (noise w) (trace w ++ [NewVariable s])).
Proof.
  intros E. unfold zeros_variable, tf_zeros, bind, liftR. rewrite E.
  eexists. split; [|split]. 3: reflexivity.
  - reflexivity.
  - reflexivity.
Qed.

Ltac build_variable_items :=
  match goal with
  | |- context [normal_variable [?a; ?b] ?w] =>
      let t := fresh "t" in
      let Ht := fresh "Ht" in
      let It := fresh "It" in
      destruct (normal_variable_items [a; b] _ w (as_shape_pair a b
                  ltac:(lia) ltac:(lia))) as (t & Ht & It & ->)
  | |- context [zeros_variable [?a; ?b] ?w] =>
      let t := fresh "t" in
      let Ht := fresh "Ht" in
      let It := fresh "It" in
      destruct (zeros_variable_items [a; b] _ w (as_shape_pair a b
                  ltac:(lia) ltac:(lia))) as (t & Ht & It & ->)
  end.

(** What a freshly built model holds.  For [0 <= code_dim < input_dim] the
    constructor creates twelve variables, in the order of the dictionary
    and with the shapes of [layer_shapes]; every entry of the six biases is
    zero, and every entry of the six weight matrices is 0.05 times a
    standard normal draw of the generator the constructor was given. *)
Theorem init_values (input_dim code_dim : Z) (w : world) :
  (0 <= code_dim)%Z -> (code_dim < input_dim)%Z ->
  exists self w',
    __init__ input_dim code_dim w = (Ok self, w') /\
    trace w' = trace w
               ++ map NewVariable
                    (layer_shapes (Z.to_nat input_dim)
                       (Z.to_nat (hidden_1_dim input_dim code_dim))
                       (Z.to_nat (hidden_2_dim input_dim code_dim))
                       (Z.to_nat code_dim)) /\
    (forall key t,
       In key ["enc_b0"; "enc_b1"; "enc_b2"; "dec_b0"; "dec_b1"; "dec_b2"]%string ->
       lookup key (_params self) = Ok t ->
       forall idx, item t idx = 0%R) /\
    (forall key t,
       In key ["enc_W0"; "enc_W1"; "enc_W2"; "dec_W0"; "dec_W1"; "dec_W2"]%string ->
       lookup key (_params self) = Ok t ->
       forall idx, exists k, item t idx = (noise w k * (5 / 100) + 0)%R).
Proof.
  intros Hc Hi.
  destruct (hidden_dims_nonneg input_dim code_dim) as [H1 H2]; [lia|].
  unfold __init__.
  remember (hidden_1_dim input_dim code_dim) as h1 eqn:Eh1. clear Eh1.
  remember (hidden_2_dim input_dim code_dim) as h2 eqn:Eh2. clear Eh2.
  unfold bind at 1, liftR, assertR.
  destruct (Z.ltb_spec code_dim input_dim) as [_|]; [|lia].
  cbv zeta. unfold bind, ret.
  do 12 (build_variable_items; cbn [noise trace]).
  cbn [noise trace] in *.
  eexists _, _. split; [reflexivity|]. split; [|split].
  - cbn [trace]. rewrite <- !app_assoc. cbn [app map layer_shapes].
    rewrite Z2Nat.inj_mul by lia. reflexivity.
  - intros key t' Hin Hl. cbn [In] in Hin. cbn [_params] in Hl.
    repeat (destruct Hin as [<-|Hin];
            [cbn in Hl; injection Hl as <-; assumption|]).
    contradiction.
  - intros key t' Hin Hl idx. cbn [In] in Hin. cbn [_params] in Hl.
    repeat (destruct Hin as [<-|Hin];
            [cbn in Hl; injection Hl as <-;
             match goal with
             | H : forall i, exists k, item ?t i = _ |- exists k, item ?t idx = _ =>
                 destruct (H idx) as [k ->]
             end;
             eexists; reflexivity|]).
    contradiction.
Qed.

Lemma init_values_witness :
  exists self w',
    __init__ 784 36 initial_world = (Ok self, w') /\
    trace w' = trace initial_world ++ map NewVariable (layer_shapes 784 597 223 36).
Proof.
  destruct (init_values 784 36 initial_world ltac:(lia) ltac:(lia))
    as (self & w' & E & Ht & _).
  exists self, w'. split; [exact E|exact Ht].
Defined.

Lemma at_least_16_epochs_witness :
  exists st' w' reports stopped,
    simulated_train (zeros [1; 2]) (zeros [2; 2]) 32 1 simulated_start initial_world
    = (Ok st', w') /\
    16 <= length reports /\
    map fst reports = firstn (length reports) (range 1 (32 + 1)) /\
    trace w' = trace initial_world
               ++ epochs_trace (zeros [1; 2]) 1 1 32 reports
               ++ (if stopped : bool then [PrintStopped] else []).
Proof.
  apply (at_least_16_epochs rows_loss unit idle_apply_gradients zero_gradient
           (zeros [1; 2]) (zeros [2; 2]) 32 1 1 [2] simulated_start initial_world).
  - lia.
  - reflexivity.
  - exact rows_loss_scalar.
  - lia.
Defined.

(** ** The sampler on tensors that are not matrices *)

(** [sample_encoding] reads [mean.shape[0]] and [mean.shape[1]]: on a mean
    and a standard deviation of one shape but of rank below two (scalars or
    vectors) it passes its shape check and then raises [IndexError], before
    any number is drawn. *)
Theorem sample_encoding_low_rank (mean stddev : tensor R) (g : rng) :
  shape mean = shape stddev ->
  length (shape mean) < 2 ->
  sample_encoding mean stddev g = (Raise IndexError, g).
Proof.
  intros E Hr. unfold sample_encoding, bind, liftR, assertR, shape_at.
  rewrite <- E.
  destruct (list_eq_dec Nat.eq_dec (shape mean) (shape mean)) as [_|N];
    [|now destruct N].
  destruct (shape mean) as [|a [|b s]]; cbn in *; try reflexivity. lia.
Qed.

Lemma sample_encoding_low_rank_witness :
  sample_encoding (zeros [3]) (zeros [3]) zero_rng = (Raise IndexError, zero_rng).
Proof.
  apply (sample_encoding_low_rank (zeros [3]) (zeros [3]) zero_rng eq_refl).
  cbn. lia.
Defined.
